(** * A model of the mirror_bridge reflection-and-marshaling engine

    The repository ships the end-to-end tests of the engine (the Python
    scripts under tests/e2e) but the engine itself (the C++ headers that
    reflect over class declarations, mangle overloads, marshal values and
    translate exceptions) is not among the repository files modelled here.  Every engine
    definition below is therefore modelled from the specification, and
    where a repository test pins an observable behaviour down (the kind of
    a raised error) the model follows the test; where the spec itself
    records that a test exercises a legacy configuration (the map
    representation of smart-pointer results, spec section 9) the model
    follows the spec's canonical design.
    The native classes exercised by the tests (Rectangle, ResourceManager,
    Calculator, EventEmitter, Person, Address, Particle) are modelled from
    the tests' assertions. *)

From Stdlib Require Import String ZArith QArith List Bool Lia.
From stdpp Require Import base list gmap strings.
Import ListNotations.
Open Scope string_scope.
#[local] Set Warnings "-register-all".

(* ------------------------------------------------------------------ *)
(** ** Declaration model (spec section 3) *)

Inductive prim := PInt | PDouble | PBool.

Inductive ownership := Exclusive | Shared.

(** [TypeRef]: a ClassValue refers to its class by fully-qualified name,
    which is the identity of a ClassDecl. *)
Inductive typeref :=
| TPrim (k : prim)
| TText
| TSeq (elem : typeref) (fixed : option nat)
| TSmart (own : ownership) (pointee : string)
| TClass (cls : string)
| TFunc (ret : option typeref) (params : list typeref).  (* ret None: void *)

Record FieldDecl := mkField {
  f_name : string;
  f_type : typeref;
  f_readonly : bool
}.

Record MethodDecl := mkMethod {
  m_name : string;
  m_params : list typeref;
  m_ret : option typeref;  (* None: void *)
  m_static : bool;
  m_const : bool;
  m_variadic : bool
}.

Record ClassDecl := mkClass {
  c_name : string;
  c_fields : list FieldDecl;
  c_ctors : list (list typeref);
  c_methods : list MethodDecl
}.

Inductive DeclarationError :=
| AmbiguousOverload (name : string) (tags : list string).

(* ------------------------------------------------------------------ *)
(** ** Overload resolver / name mangler (spec section 4.2) *)

Module Overload.

(** Modelled from the spec: the engine's mangler is not in the sources.
    One short stable tag per TypeRef category; the integer and floating
    tags are the suffixes the overloading test calls ([print_int],
    [format_int_int], [print_double]), the text tag is the [string] the
    test searches the mangled names for. *)
Definition type_tag (t : typeref) : string :=
  match t with
  | TPrim PInt => "int"
  | TPrim PDouble => "double"
  | TPrim PBool => "bool"
  | TText => "string"
  | TSeq _ _ => "vector"
  | TSmart _ _ => "ptr"
  | TClass c => c
  | TFunc _ _ => "function"
  end.

Definition tag_seq (m : MethodDecl) : list string := map type_tag (m_params m).

(** Number of declarations of the class using base name [n]. *)
Definition count_name (ms : list MethodDecl) (n : string) : nat :=
  length (List.filter (fun m => String.eqb (m_name m) n) ms).

(** Number of declarations with the same base name and tag sequence. *)
Definition count_sig (ms : list MethodDecl) (m : MethodDecl) : nat :=
  length (List.filter (fun m' => String.eqb (m_name m') (m_name m)
                            && bool_decide (tag_seq m' = tag_seq m)) ms).

Definition mangle (m : MethodDecl) : string :=
  m_name m ++ String.concat "" (map (fun t => "_" ++ t) (tag_seq m)).

(** The bound symbol: the base name when exactly one declaration uses it,
    the mangled name otherwise. *)
Definition bound_symbol (ms : list MethodDecl) (m : MethodDecl) : string :=
  if Nat.leb 2 (count_name ms (m_name m)) then mangle m else m_name m.

(** Resolution of one class: a dispatch table keyed by bound symbol, and
    the declarations rejected with a [DeclarationError] (excluded from the
    bound surface, the rest of the class is still bound). *)
Fixpoint resolve_from (all rest : list MethodDecl)
  : list (string * MethodDecl) * list DeclarationError :=
  match rest with
  | [] => ([], [])
  | m :: rest' =>
      let '(tbl, errs) := resolve_from all rest' in
      if Nat.leb 2 (count_sig all m)
      then (tbl, AmbiguousOverload (m_name m) (tag_seq m) :: errs)
      else ((bound_symbol all m, m) :: tbl, errs)
  end.

Definition resolve (ms : list MethodDecl) := resolve_from ms ms.

End Overload.

(* ------------------------------------------------------------------ *)
(** ** Values on both sides of the native boundary *)

(** Host values.  [HObj l] is a reference to the bound instance stored at
    [l] in the host heap; [HFun i] a reference to a host callable. *)
Inductive hval :=
| HNone
| HInt (z : Z)
| HFloat (q : Q)
| HBool (b : bool)
| HStr (s : string)
| HList (vs : list hval)
| HDict (kvs : list (string * hval))
| HObj (l : nat)
| HFun (i : nat).

(** Native values.  A C++ double is modelled by a rational: every value
    the claims compute with is exactly representable, so no rounding
    occurs on them.  [NHandle] is a smart pointer (null or owning its
    pointee), [NFunc] a [std::function] (empty or bound to a host
    callable through the engine's adapter), [NVoid] what a void function
    returns. *)
Inductive nval :=
| NInt (z : Z)
| NDouble (q : Q)
| NBool (b : bool)
| NStr (s : string)
| NSeq (vs : list nval)
| NHandle (p : option nval)
| NObj (cls : string) (fields : list (string * nval))
| NFunc (f : option nat)
| NVoid.

(** What a host callable does when called: return a value or raise a host
    exception of some kind ([ValueError], ...) with a message. *)
Inductive host_outcome :=
| HReturn (v : hval)
| HRaise (kind : string) (msg : string).

(** A host callable: arguments and the host-side log of observable effects
    in, new log and outcome out. *)
Definition hfun := list hval -> list hval -> list hval * host_outcome.

(** The host-visible state the engine acts on. *)
Record hstate := mkH {
  heap : gmap nat nval;   (* bound instances, each owning one native value *)
  next : nat;             (* next fresh instance id *)
  hfuns : gmap nat hfun;  (* host callables *)
  hlog : list hval;       (* observable host-side effects *)
  live : list nat         (* native resources currently held by frames *)
}.

Definition with_heap (st : hstate) (h : gmap nat nval) : hstate :=
  mkH h (next st) (hfuns st) (hlog st) (live st).
Definition with_log (st : hstate) (lg : list hval) : hstate :=
  mkH (heap st) (next st) (hfuns st) lg (live st).
Definition with_live (st : hstate) (rs : list nat) : hstate :=
  mkH (heap st) (next st) (hfuns st) (hlog st) rs.

(** Creation of a bound instance owning [v]. *)
Definition alloc (st : hstate) (v : nval) : hstate * nat :=
  (mkH (<[next st := v]> (heap st)) (S (next st)) (hfuns st) (hlog st) (live st),
   next st).

(** Errors surfaced to the host (spec section 7). *)
Inductive host_error :=
| MarshalError (what : string)
| AttributeError (name : string)
| HostErr (kind : string) (msg : string).

Inductive res (A : Type) :=
| Ok (a : A)
| Err (e : host_error).
Arguments Ok {A} a.
Arguments Err {A} e.

Definition res_bind {A B} (m : res A) (k : A -> res B) : res B :=
  match m with Ok a => k a | Err e => Err e end.
Notation "'let*' x ':=' m 'in' k" := (res_bind m (fun x => k))
  (at level 200, x name, m at level 100, k at level 200).

(** Association lists of fields, in declaration order. *)
Fixpoint assoc {A} (fs : list (string * A)) (k : string) : option A :=
  match fs with
  | [] => None
  | (k', v) :: r => if String.eqb k' k then Some v else assoc r k
  end.

Fixpoint assoc_set {A} (fs : list (string * A)) (k : string) (v : A)
  : list (string * A) :=
  match fs with
  | [] => [(k, v)]
  | (k', v') :: r => if String.eqb k' k then (k, v) :: r else (k', v') :: assoc_set r k v
  end.

(** List traversals the mapper recurses through. *)
Fixpoint map_res {A B} (f : A -> res B) (xs : list A) : res (list B) :=
  match xs with
  | [] => Ok []
  | x :: r => let* y := f x in let* ys := map_res f r in Ok (y :: ys)
  end.

Fixpoint map_st {A B} (f : hstate -> A -> hstate * B) (st : hstate) (xs : list A)
  : hstate * list B :=
  match xs with
  | [] => (st, [])
  | x :: r =>
      let '(st1, y) := f st x in
      let '(st2, ys) := map_st f st1 r in (st2, y :: ys)
  end.

(** Writes the entries of a dict over an object, key by key; [conv k x]
    is [None] for a key that names no field (the entry is skipped). *)
Fixpoint fill_fields (conv : string -> hval -> option (res nval))
  (kvs : list (string * hval)) (fs : list (string * nval)) : res (list (string * nval)) :=
  match kvs with
  | [] => Ok fs
  | (k, x) :: r =>
      match conv k x with
      | Some (Ok y) => fill_fields conv r (assoc_set fs k y)
      | Some (Err e) => Err e
      | None => fill_fields conv r fs
      end
  end.

(** Modelled from the spec: representation of native objects reached
    through a smart pointer.  Spec section 9 adopts bound instances with
    copy semantics as the canonical design and treats the
    associative-map representation as a legacy configuration, not the
    default; the repository's smart-pointer test asserts
    [isinstance(result, dict)] on a returned [unique_ptr]/[shared_ptr],
    i.e. it exercises the legacy configuration.  The model is the
    canonical (default) configuration. *)
Inductive convention := BoundInstance | AssocMap.

Definition smart_convention : convention := BoundInstance.

(** Map representation of a native value (legacy configuration): objects
    become dicts. *)
Fixpoint to_dict (v : nval) : hval :=
  match v with
  | NInt z => HInt z
  | NDouble q => HFloat q
  | NBool b => HBool b
  | NStr s => HStr s
  | NSeq vs => HList (map to_dict vs)
  | NHandle None => HNone
  | NHandle (Some p) => to_dict p
  | NObj _ fs =>
      HDict ((fix go (fs : list (string * nval)) : list (string * hval) :=
                match fs with
                | [] => []
                | (k, x) :: r => (k, to_dict x) :: go r
                end) fs)
  | NFunc None => HNone
  | NFunc (Some f) => HFun f
  | NVoid => HNone
  end.

(* ------------------------------------------------------------------ *)
(** ** Type mapper and field accessors (spec sections 4.3 and 4.4) *)

Section Engine.

(** The declaration model produced by the extractor, and the native
    default constructor of each class (the object a dict payload is
    written over). *)
Variable decl_of : string -> option ClassDecl.
Variable default_of : string -> option (list (string * nval)).

Definition field_decl (c f : string) : option FieldDecl :=
  match decl_of c with
  | Some cd => List.find (fun fd => String.eqb (f_name fd) f) (c_fields cd)
  | None => None
  end.

(** Modelled from the spec: native -> host marshaling (section 4.3).
    Primitives and text are copied; a sequence becomes a fresh list; a
    class value is copied into a new bound instance; a null smart handle
    becomes the host "no value" marker and a non-null one the
    [smart_convention] representation of a copy of its pointee; a
    function object becomes its host callable or "no value" when empty. *)
Fixpoint to_host (st : hstate) (t : typeref) (v : nval) {struct v}
  : hstate * hval :=
  match t, v with
  | TPrim _, NInt z => (st, HInt z)
  | TPrim _, NDouble q => (st, HFloat q)
  | TPrim _, NBool b => (st, HBool b)
  | TText, NStr s => (st, HStr s)
  | TSeq elem _, NSeq vs =>
      let '(st', hvs) := map_st (fun s x => to_host s elem x) st vs in (st', HList hvs)
  | TSmart _ _, NHandle None => (st, HNone)
  | TSmart _ _, NHandle (Some p) =>
      match smart_convention with
      | AssocMap => (st, to_dict p)
      | BoundInstance => let '(st', l) := alloc st p in (st', HObj l)
      end
  | TClass _, NObj c fs => let '(st', l) := alloc st (NObj c fs) in (st', HObj l)
  | TFunc _ _, NFunc None => (st, HNone)
  | TFunc _ _, NFunc (Some f) => (st, HFun f)
  | _, _ => (st, HNone)
  end.

(** The object held by the bound instance [l], when it is of class [c]. *)
Definition instance_of (st : hstate) (c : string) (l : nat)
  : res (list (string * nval)) :=
  match heap st !! l with
  | Some (NObj c' fs) =>
      if String.eqb c' c then Ok fs else Err (MarshalError "incompatible class")
  | _ => Err (MarshalError "not a bound instance")
  end.

(** Modelled from the spec: host -> native marshaling (section 4.3).  A
    value of the wrong kind, a sequence of the wrong length for a
    fixed-length sequence, or an instance of another class is a
    [MarshalError].  A class value or smart-handle payload given as a
    bound instance is copied out of that instance; a dict payload is
    written over the class's default object, key by key. *)
Fixpoint to_native (st : hstate) (t : typeref) (v : hval) {struct v} : res nval :=
  match t, v with
  | TPrim PInt, HInt z => Ok (NInt z)
  | TPrim PDouble, HFloat q => Ok (NDouble q)
  | TPrim PDouble, HInt z => Ok (NDouble (inject_Z z))
  | TPrim PBool, HBool b => Ok (NBool b)
  | TText, HStr s => Ok (NStr s)
  | TSeq elem fixed, HList vs =>
      let* nvs := map_res (to_native st elem) vs in
      match fixed with
      | Some n =>
          if Nat.eqb (length nvs) n then Ok (NSeq nvs)
          else Err (MarshalError "sequence length")
      | None => Ok (NSeq nvs)
      end
  | TSmart _ _, HNone => Ok (NHandle None)
  | TSmart _ c, HObj l => let* fs := instance_of st c l in Ok (NHandle (Some (NObj c fs)))
  | TSmart _ c, HDict kvs =>
      match default_of c with
      | None => Err (MarshalError "no default constructor")
      | Some fs0 =>
          let* fs :=
            fill_fields (fun k x => match field_decl c k with
                                    | Some fd => Some (to_native st (f_type fd) x)
                                    | None => None
                                    end) kvs fs0 in
          Ok (NHandle (Some (NObj c fs)))
      end
  | TClass c, HObj l => let* fs := instance_of st c l in Ok (NObj c fs)
  | TFunc _ _, HNone => Ok (NFunc None)
  | TFunc _ _, HFun f => Ok (NFunc (Some f))
  | _, _ => Err (MarshalError "incompatible kind")
  end.

(** Modelled from the spec: property getter of a bound instance: the field's native value routed
    through [to_host] by the field's TypeRef. *)
Definition get_field (st : hstate) (l : nat) (f : string) : res (hstate * hval) :=
  match heap st !! l with
  | Some (NObj c fs) =>
      match field_decl c f, assoc fs f with
      | Some fd, Some v => Ok (to_host st (f_type fd) v)
      | _, _ => Err (AttributeError f)
      end
  | _ => Err (AttributeError f)
  end.

(** Modelled from the spec: property setter; the host value routed through [to_native], the
    result replacing the field's prior contents in the instance's own
    native object. *)
Definition set_field (st : hstate) (l : nat) (f : string) (hv : hval) : res hstate :=
  match heap st !! l with
  | Some (NObj c fs) =>
      match field_decl c f with
      | Some fd =>
          if f_readonly fd then Err (AttributeError f)
          else let* v := to_native st (f_type fd) hv in
               Ok (with_heap st (<[l := NObj c (assoc_set fs f v)]> (heap st)))
      | None => Err (AttributeError f)
      end
  | _ => Err (AttributeError f)
  end.

End Engine.

(* ------------------------------------------------------------------ *)
(** ** Marshaling runtime (spec sections 4.5 and 7) *)

(** Native code: a state-and-exception computation over the host state
    (native objects live in the bound instances; callbacks re-enter the
    host).  [inr msg] is a C++ exception in flight, with its [what()]. *)
Definition NM (A : Type) := hstate -> hstate * (A + string).

Definition nret {A} (a : A) : NM A := fun st => (st, inl a).
Definition nthrow {A} (msg : string) : NM A := fun st => (st, inr msg).
Definition nbind {A B} (m : NM A) (k : A -> NM B) : NM B :=
  fun st => let '(st', r) := m st in
            match r with inl a => k a st' | inr e => (st', inr e) end.
Notation "'nlet' x ':=' m 'in' k" := (nbind m (fun x => k))
  (at level 200, x name, m at level 100, k at level 200).

(** Member access of native code on the object of instance [l]. *)
Definition nget (l : nat) (f : string) : NM nval := fun st =>
  match heap st !! l with
  | Some (NObj _ fs) =>
      match assoc fs f with Some v => (st, inl v) | None => (st, inr "no member") end
  | _ => (st, inr "no object")
  end.

Definition nset (l : nat) (f : string) (v : nval) : NM unit := fun st =>
  match heap st !! l with
  | Some (NObj c fs) => (with_heap st (<[l := NObj c (assoc_set fs f v)]> (heap st)), inl tt)
  | _ => (st, inr "no object")
  end.

(** A native frame holding resource [r] for the extent of [k]: acquired
    on entry, released on exit whether [k] returns or unwinds. *)
Definition scoped {A} (r : nat) (k : NM A) : NM A := fun st =>
  let '(st', out) := k (with_live st (r :: live st)) in
  (with_live st' (tl (live st')), out).

(** A native method body: the receiver instance and the native arguments. *)
Definition body := nat -> list nval -> NM nval.

(** Native code around a point of execution (the hole), built from the
    combinators above with no handler between the hole and the body's
    boundary: steps run before the hole ([FAfter m K]: run [m], continue
    in [K x] with its result), resource frames enclosing it ([FScoped]),
    and code after it ([FThen C k]). *)
Inductive frame :=
| FHole
| FAfter (m : NM nval) (K : nval -> frame)
| FScoped (r : nat) (C : frame)
| FThen (C : frame) (k : nval -> NM nval).

Fixpoint plug (C : frame) (e : NM nval) : NM nval :=
  match C with
  | FHole => e
  | FAfter m K => nbind m (fun x => plug (K x) e)
  | FScoped r C' => scoped r (plug C' e)
  | FThen C' k => nbind (plug C' e) k
  end.

(** The state in which running [C] from [st] reaches its hole, when every
    step before the hole completes (returning, with the resources it
    acquired released again). *)
Fixpoint reach (C : frame) (st : hstate) : option hstate :=
  match C with
  | FHole => Some st
  | FAfter m K =>
      match m st with
      | (s1, inl x) =>
          if List.list_eq_dec Nat.eq_dec (live s1) (live st) then reach (K x) s1 else None
      | (_, inr _) => None
      end
  | FScoped r C' => reach C' (with_live st (r :: live st))
  | FThen C' _ => reach C' st
  end.

Section Runtime.

Variable decl_of : string -> option ClassDecl.
Variable default_of : string -> option (list (string * nval)).

(** Arguments in: arity and kind checked against the ParamDecls. *)
Fixpoint marshal_args (st : hstate) (ps : list typeref) (args : list hval)
  : res (list nval) :=
  match ps, args with
  | [], [] => Ok []
  | p :: ps', a :: args' =>
      let* x := to_native decl_of default_of st p a in
      let* xs := marshal_args st ps' args' in Ok (x :: xs)
  | _, _ => Err (MarshalError "wrong arity")
  end.

(** The arguments of a callback marshaled out to the host, left to
    right, each by its parameter's TypeRef. *)
Definition marshal_out (st : hstate) (ps : list typeref) (args : list nval)
  : hstate * list hval :=
  fold_left (fun acc pa =>
               let '(s, hs) := acc in
               let '(s', h) := to_host s (fst pa) (snd pa) in (s', app hs [h]))
            (combine ps args) (st, @nil hval).

(** Modelled from the spec: the native-callable adapter of a host callable (section 4.3,
    Function row): re-enters the host with the arguments marshaled out and
    marshals the return value back.  A host exception raised by the
    callable unwinds the native frame as a C++ exception carrying the host
    message; the repository's callback test catches it at the original
    call site as [RuntimeError] with that message.  Calling an empty
    [std::function] throws [bad_function_call]. *)
Definition call_host (cb : nval) (ret : option typeref) (ps : list typeref)
  (args : list nval) : NM nval := fun st =>
  match cb with
  | NFunc (Some i) =>
      match hfuns st !! i with
      | Some fn =>
          let '(st0, hargs) := marshal_out st ps args in
          let '(lg, out) := fn hargs (hlog st0) in
          let st1 := with_log st0 lg in
          match out with
          | HRaise _ msg => (st1, inr msg)
          | HReturn v =>
              match ret with
              | None => (st1, inl NVoid)
              | Some t =>
                  match to_native decl_of default_of st1 t v with
                  | Ok x => (st1, inl x)
                  | Err _ => (st1, inr "bad callback result")
                  end
              end
          end
      | None => (st, inr "bad_function_call")
      end
  | _ => (st, inr "bad_function_call")
  end.

(** Modelled from the spec: one call across the boundary:
    Idle -> ArgsMarshaled -> NativeExecuting -> ResultMarshaled -> Idle, or
    NativeExecuting -> NativeFaulted -> ErrorTranslated -> Idle.
    The host state after the call is returned on every path: a failed
    call ends that call only. *)
Definition invoke (st : hstate) (l : nat) (md : MethodDecl) (b : body)
  (args : list hval) : hstate * res hval :=
  match marshal_args st (m_params md) args with
  | Err e => (st, Err e)
  | Ok nargs =>
      let '(st1, out) := b l nargs st in
      match out with
      | inl v =>
          match m_ret md with
          | None => (st1, Ok HNone)
          | Some t => let '(st2, hv) := to_host st1 t v in (st2, Ok hv)
          end
      | inr msg => (st1, Err (HostErr "RuntimeError" msg))
      end
  end.

(** Modelled from the spec: constructor dispatch (section 4.2); the first constructor in
    source order whose arity matches and whose parameters accept the
    arguments builds the native object, owned by a new bound instance. *)
Fixpoint construct (st : hstate) (ctors : list (list typeref * (list nval -> nval)))
  (args : list hval) : res (hstate * nat) :=
  match ctors with
  | [] => Err (MarshalError "no matching constructor")
  | (ps, mk) :: rest =>
      match marshal_args st ps args with
      | Ok nargs => Ok (alloc st (mk nargs))
      | Err _ => construct st rest args
      end
  end.

End Runtime.

(* ------------------------------------------------------------------ *)
(** ** The native classes exercised by the repository's tests

    Modelled from the spec: the C++ headers of these classes are not in
    the sources; their declarations, defaults and bodies follow the
    assertions of the tests that bind them. *)

Module Classes.

Definition dbl : typeref := TPrim PDouble.
Definition int : typeref := TPrim PInt.

Definition rw (n : string) (t : typeref) : FieldDecl := mkField n t false.
Definition meth (n : string) (ps : list typeref) (r : option typeref) : MethodDecl :=
  mkMethod n ps r false false false.

(** tests/e2e/advanced/constructors: Rectangle. *)
Definition Rectangle : ClassDecl :=
  mkClass "Rectangle" [rw "width" dbl; rw "height" dbl; rw "name" TText]
    [[]; [dbl; dbl]; [dbl; dbl; TText]]
    [meth "area" [] (Some dbl); meth "perimeter" [] (Some dbl)].

Definition rect (w h : Q) (n : string) : nval :=
  NObj "Rectangle" [("width", NDouble w); ("height", NDouble h); ("name", NStr n)].

Definition Rectangle_ctors : list (list typeref * (list nval -> nval)) :=
  [([], fun _ => rect 0 0 "unnamed");
   ([dbl; dbl], fun a => match a with
                         | [NDouble w; NDouble h] => rect w h "rectangle"
                         | _ => rect 0 0 "unnamed" end);
   ([dbl; dbl; TText], fun a => match a with
                               | [NDouble w; NDouble h; NStr n] => rect w h n
                               | _ => rect 0 0 "unnamed" end)].

Definition as_double (v : nval) : Q := match v with NDouble q => q | _ => 0 end.

Definition Rectangle_area : body := fun l _ =>
  nlet w := nget l "width" in nlet h := nget l "height" in
  nret (NDouble (as_double w * as_double h)).

Definition Rectangle_perimeter : body := fun l _ =>
  nlet w := nget l "width" in nlet h := nget l "height" in
  nret (NDouble (2 * (as_double w + as_double h))).

(** tests/e2e/methods/calculator: Calculator.  The text of the exception
    its [divide] throws on a zero divisor is not in the sources; it is a
    parameter of the model. *)
Definition Calculator : ClassDecl :=
  mkClass "Calculator" [rw "value" dbl] [[]]
    [meth "divide" [dbl] (Some dbl); meth "add" [dbl] (Some dbl)].

Definition Calculator_divide (div_msg : string) : body := fun l a =>
  match a with
  | [NDouble x] =>
      if Qeq_bool x 0 then nthrow div_msg
      else nlet v := nget l "value" in
           nlet _ := nset l "value" (NDouble (as_double v / x)) in
           nget l "value"
  | _ => nthrow "bad arguments"
  end.

Definition Calculator_add : body := fun l a =>
  match a with
  | [NDouble x] =>
      nlet v := nget l "value" in
      nlet _ := nset l "value" (NDouble (as_double v + x)) in
      nget l "value"
  | _ => nthrow "bad arguments"
  end.

(** tests/e2e/advanced/smart_ptrs: Data and ResourceManager. *)
Definition Data : ClassDecl :=
  mkClass "Data" [rw "name" TText; rw "value" int] [[]] [].

Definition ResourceManager : ClassDecl :=
  mkClass "ResourceManager"
    [rw "unique_data" (TSmart Exclusive "Data"); rw "shared_data" (TSmart Shared "Data")]
    [[]]
    [meth "create_unique" [TText; int] (Some (TSmart Exclusive "Data"));
     meth "create_shared" [TText; int] (Some (TSmart Shared "Data"));
     meth "get_unique_name" [] (Some TText);
     meth "get_unique_value" [] (Some int)].

Definition ResourceManager_create : body := fun _ a =>
  match a with
  | [NStr n; NInt v] => nret (NHandle (Some (NObj "Data" [("name", NStr n); ("value", NInt v)])))
  | _ => nthrow "bad arguments"
  end.



(** tests/e2e/callbacks: EventEmitter, with three [std::function] slots. *)
Definition EventEmitter : ClassDecl :=
  mkClass "EventEmitter"
    [rw "data_callback" (TFunc None [int]); rw "message_callback" (TFunc None [TText]);
     rw "compute_callback" (TFunc (Some int) [int; int])]
    [[]]
    [meth "on_data" [TFunc None [int]] None; meth "on_message" [TFunc None [TText]] None;
     meth "on_compute" [TFunc (Some int) [int; int]] None;
     meth "has_data_callback" [] (Some (TPrim PBool));
     meth "has_message_callback" [] (Some (TPrim PBool));
     meth "has_compute_callback" [] (Some (TPrim PBool));
     meth "emit_data" [int] None; meth "emit_message" [TText] None;
     meth "compute" [int; int] (Some int); meth "clear_callbacks" [] None].

(** [on_*(f)]: stores [f] in the slot. *)
Definition EventEmitter_on (slot : string) : body := fun l a =>
  match a with
  | [f] => nlet _ := nset l slot f in nret NVoid
  | _ => nthrow "bad arguments"
  end.

(** [has_*_callback()]: whether the slot holds a callable. *)
Definition EventEmitter_has_callback (slot : string) : body := fun l _ =>
  nlet f := nget l slot in
  match f with NFunc (Some _) => nret (NBool true) | _ => nret (NBool false) end.

Definition EventEmitter_on_data : body := EventEmitter_on "data_callback".
Definition EventEmitter_on_message : body := EventEmitter_on "message_callback".
Definition EventEmitter_on_compute : body := EventEmitter_on "compute_callback".
Definition EventEmitter_has_data_callback : body := EventEmitter_has_callback "data_callback".
Definition EventEmitter_has_message_callback : body :=
  EventEmitter_has_callback "message_callback".
Definition EventEmitter_has_compute_callback : body :=
  EventEmitter_has_callback "compute_callback".

Definition EventEmitter_clear_callbacks : body := fun l _ =>
  nlet _ := nset l "data_callback" (NFunc None) in
  nlet _ := nset l "message_callback" (NFunc None) in
  nlet _ := nset l "compute_callback" (NFunc None) in
  nret NVoid.

(** tests/e2e/nesting/person: Person with a nested Address. *)
Definition Address : ClassDecl :=
  mkClass "Address" [rw "street" TText; rw "city" TText; rw "zip_code" int] [[]] [].

Definition Person : ClassDecl :=
  mkClass "Person" [rw "name" TText; rw "age" int; rw "address" (TClass "Address")] [[]] [].

(** tests/e2e/test_particle.py: Particle, with [std::vector<double>]
    position and velocity and a [std::array<double, 3>] acceleration. *)
Definition Particle : ClassDecl :=
  mkClass "Particle"
    [rw "mass" dbl; rw "position" (TSeq dbl None); rw "velocity" (TSeq dbl None);
     rw "acceleration" (TSeq dbl (Some 3))]
    [[]] [].

Definition decl_of (c : string) : option ClassDecl :=
  List.find (fun cd => String.eqb (c_name cd) c)
    [Rectangle; Calculator; Data; ResourceManager; EventEmitter; Address; Person; Particle].

Definition zero3 : nval := NSeq [NDouble 0; NDouble 0; NDouble 0].

(** Native default constructors. *)
Definition default_of (c : string) : option (list (string * nval)) :=
  if String.eqb c "Data" then Some [("name", NStr ""); ("value", NInt 0)]
  else if String.eqb c "Address" then
    Some [("street", NStr ""); ("city", NStr ""); ("zip_code", NInt 0)]
  else if String.eqb c "Person" then
    Some [("name", NStr ""); ("age", NInt 0);
          ("address", NObj "Address" [("street", NStr ""); ("city", NStr ""); ("zip_code", NInt 0)])]
  else if String.eqb c "ResourceManager" then
    Some [("unique_data", NHandle None); ("shared_data", NHandle None)]
  else if String.eqb c "EventEmitter" then
    Some [("data_callback", NFunc None); ("message_callback", NFunc None);
          ("compute_callback", NFunc None)]
  else if String.eqb c "Calculator" then Some [("value", NDouble 0)]
  else if String.eqb c "Particle" then
    Some [("mass", NDouble 1); ("position", zero3); ("velocity", zero3);
          ("acceleration", zero3)]
  else None.

(** An emission: calls the callback of the slot, when one is set, with
    the method's arguments; with the slot empty it returns [unset]. *)
Definition EventEmitter_fire (slot : string) (ret : option typeref) (ps : list typeref)
  (unset : nval) : body := fun l a =>
  nlet f := nget l slot in
  match f with
  | NFunc (Some _) => call_host decl_of default_of f ret ps a
  | _ => nret unset
  end.

Definition EventEmitter_emit_data : body := EventEmitter_fire "data_callback" None [int] NVoid.
Definition EventEmitter_emit_message : body :=
  EventEmitter_fire "message_callback" None [TText] NVoid.

(** The callback slots of EventEmitter: the field, its setter, its
    feature test and, for the void slots, the emission that fires it.
    The compute slot is fired by [compute(a, b)], which returns the
    callback's result; the tests never call it with the slot empty, and
    it is not modelled. *)
Record slot_methods := mkSlot {
  sl_field : string;
  sl_on : MethodDecl * body;
  sl_has : MethodDecl * body;
  sl_emit : option (MethodDecl * body)
}.

Definition EventEmitter_slots : list slot_methods :=
  [mkSlot "data_callback" (meth "on_data" [TFunc None [int]] None, EventEmitter_on_data)
     (meth "has_data_callback" [] (Some (TPrim PBool)), EventEmitter_has_data_callback)
     (Some (meth "emit_data" [int] None, EventEmitter_emit_data));
   mkSlot "message_callback"
     (meth "on_message" [TFunc None [TText]] None, EventEmitter_on_message)
     (meth "has_message_callback" [] (Some (TPrim PBool)), EventEmitter_has_message_callback)
     (Some (meth "emit_message" [TText] None, EventEmitter_emit_message));
   mkSlot "compute_callback"
     (meth "on_compute" [TFunc (Some int) [int; int]] None, EventEmitter_on_compute)
     (meth "has_compute_callback" [] (Some (TPrim PBool)), EventEmitter_has_compute_callback)
     None].

(** A host state with no instances. *)
Definition empty_state : hstate := mkH ∅ 0 ∅ [] [].

(** Default construction of a class of the model. *)
Definition new_default (st : hstate) (c : string) : hstate * nat :=
  alloc st (NObj c (match default_of c with Some fs => fs | None => [] end)).

(** Scenarios of the tests, as host states (the instance under test has
    id 0). *)
Definition calc_state : hstate := fst (new_default empty_state "Calculator").
Definition rm_state : hstate := fst (new_default empty_state "ResourceManager").

(** A Person (id 0) and a populated Address (id 1). *)
Definition person_state : hstate :=
  fst (alloc (fst (new_default empty_state "Person"))
         (NObj "Address" [("street", NStr "123 Main St"); ("city", NStr "Springfield");
                          ("zip_code", NInt 12345)])).

(** The callbacks of tests/e2e/callbacks: [data_handler] appends its
    argument to a host list, [bad_callback] raises [ValueError]. *)
Definition data_handler : hfun := fun args lg => (app lg args, HReturn HNone).
Definition bad_callback : hfun :=
  fun _ lg => (lg, HRaise "ValueError" "Test exception from Python").

(** An EventEmitter (id 0) whose data callback is [bad_callback] (host
    callable 0); [data_handler] is host callable 1. *)
Definition emitter_state : hstate :=
  let st := fst (new_default empty_state "EventEmitter") in
  mkH (<[0 := NObj "EventEmitter" [("data_callback", NFunc (Some 0));
                                   ("message_callback", NFunc None);
                                   ("compute_callback", NFunc None)]]> (heap st))
      (next st) (<[1 := data_handler]> (<[0 := bad_callback]> ∅)) [] [].




(** tests/e2e/advanced/overloading: the methods of Printer. *)
Definition printer_methods : list MethodDecl :=
  [meth "print" [int] None; meth "print" [dbl] None; meth "print" [TText] None;
   meth "format" [int; int] (Some TText); meth "format" [dbl; dbl] (Some TText);
   meth "format" [TText; TText] (Some TText); meth "get_last" [] (Some TText)].

End Classes.

(* ------------------------------------------------------------------ *)
(** ** Predicates used by the statements *)

(** Every bound instance has an id below the next fresh one. *)
Definition wf (st : hstate) : Prop :=
  forall k v, heap st !! k = Some v -> k < next st.



(** The value a host-side read of a property returns. *)
Definition field_value (dcl : string -> option ClassDecl) (st : hstate) (l : nat)
  (f : string) : option hval :=
  match get_field dcl st l f with Ok (_, v) => Some v | Err _ => None end.

(** A cleared callback slot of an EventEmitter: its feature test reports
    false, and its emission (if the slot has one), called with any
    arguments its parameters accept, returns without error and leaves the
    whole host state (instances, host log, resources) as it was. *)
Definition callback_unset (st : hstate) (l : nat) (sm : Classes.slot_methods) : Prop :=
  invoke Classes.decl_of Classes.default_of st l (fst (Classes.sl_has sm))
    (snd (Classes.sl_has sm)) [] = (st, Ok (HBool false)) /\
  match Classes.sl_emit sm with
  | Some (md, b) =>
      forall args nargs,
        marshal_args Classes.decl_of Classes.default_of st (m_params md) args = Ok nargs ->
        invoke Classes.decl_of Classes.default_of st l md b args = (st, Ok HNone)
  | None => True
  end.

(* ------------------------------------------------------------------ *)
(** ** The pure-Python classes of the examples

    examples/simple_demo/calculator_python.py,
    examples/simple_demo/text_analyzer_python.py,
    examples/hackernews_demo/log_parser.py and
    examples/blog_post_demo/image_processor_pure_python.py, translated
    from their source.  A Python int is a [Z] (a length or a count a
    [nat]); a [str] is its list of code points.  The Unicode database
    behind [str.isspace] and [str.lower] is not part of the programs: it is
    a parameter of the definitions that use it.  A [while] loop runs on
    fuel computed from its inputs and returns [None] when the fuel runs
    out; the properties show that it never does.  A Python exception is
    [Raise] with the exception's class name. *)

Inductive outcome (A : Type) :=
| Ret (a : A)
| Raise (exc : string)
| OutOfFuel.
Arguments Ret {A} a.
Arguments Raise {A} exc.
Arguments OutOfFuel {A}.

(** The code points of an ASCII string literal. *)
Definition py_str (s : string) : list Z :=
  map (fun a => Z.of_nat (Ascii.nat_of_ascii a)) (list_ascii_of_string s).

(** [str.isspace] and [str.lower] on one-character strings, restricted to
    the ASCII characters (where they agree with Python's); the properties
    are stated for any character tables, these only instantiate them. *)
Definition ascii_isspace (c : Z) : bool :=
  Z.eqb c 32 || (Z.leb 9 c && Z.leb c 13) || (Z.leb 28 c && Z.leb c 31).
Definition ascii_lower (c : Z) : list Z :=
  if Z.leb 65 c && Z.leb c 90 then [(c + 32)%Z] else [c].
Definition ascii_str_lower (s : list Z) : list Z := concat (map ascii_lower s).

Module PyCalculator.
Local Open Scope Z_scope.

(** [Calculator.gcd] (lines 86-89): [while b != 0: a, b = b, a % b],
    with Python's [%] (the remainder takes the sign of the divisor, as
    [Z.modulo] does). *)
Fixpoint gcd_loop (fuel : nat) (a b : Z) : option Z :=
  match fuel with
  | O => None
  | S f => if Z.eqb b 0 then Some a else gcd_loop f b (a mod b)
  end.

Definition gcd (a b : Z) : option Z := gcd_loop (S (Z.to_nat (Z.abs b))) a b.

(** [Calculator.lcm] (lines 91-92): [(a * b) // self.gcd(a, b)], with
    Python's floor division [//] ([Z.div]); a zero divisor raises
    [ZeroDivisionError]. *)
Definition lcm (a b : Z) : outcome Z :=
  match gcd a b with
  | None => OutOfFuel
  | Some g => if Z.eqb g 0 then Raise "ZeroDivisionError" else Ret ((a * b) / g)
  end.

(** [Calculator.fibonacci] (lines 62-69); the loop
    [for _ in range(2, n + 1)] runs [n - 1] times. *)
Fixpoint fib_loop (k : nat) (prev curr : Z) : Z :=
  match k with
  | O => curr
  | S k' => fib_loop k' curr (prev + curr)
  end.

Definition fibonacci (n : Z) : Z :=
  if Z.leb n 1 then n else fib_loop (Z.to_nat (n - 1)) 0 1.

(** [Calculator.is_prime] (lines 71-84): trial division by [i] and
    [i + 2] for [i = 5, 11, 17, ...] while [i * i <= n]. *)
Fixpoint prime_loop (fuel : nat) (n i : Z) : option bool :=
  match fuel with
  | O => None
  | S f =>
      if Z.leb (i * i) n then
        if Z.eqb (n mod i) 0 || Z.eqb (n mod (i + 2)) 0 then Some false
        else prime_loop f n (i + 6)
      else Some true
  end.

Definition is_prime (n : Z) : option bool :=
  if Z.leb n 1 then Some false
  else if Z.leb n 3 then Some true
  else if Z.eqb (n mod 2) 0 || Z.eqb (n mod 3) 0 then Some false
  else prime_loop (S (Z.to_nat n)) n 5.

End PyCalculator.

Module PyTextAnalyzer.

Section TextAnalyzer.

(** [c.isspace()] and [c.lower()] for a one-character string [c]. *)
Variable isspace : Z -> bool.
Variable lower : Z -> list Z.

(** [count_chars] (lines 17-18). *)
Definition count_chars (text : list Z) : nat := length text.

(** [str.split()] without a separator: the maximal runs of
    non-whitespace characters; [cur] is the run being read, reversed. *)
Fixpoint split_ws_acc (cur : list Z) (s : list Z) : list (list Z) :=
  match s with
  | [] => match cur with [] => [] | _ => [rev cur] end
  | c :: s' =>
      if isspace c
      then match cur with
           | [] => split_ws_acc [] s'
           | _ => rev cur :: split_ws_acc [] s'
           end
      else split_ws_acc (c :: cur) s'
  end.

Definition split_ws (s : list Z) : list (list Z) := split_ws_acc [] s.

(** [count_words] (lines 20-23). *)
Definition count_words (text : list Z) : nat :=
  match text with [] => 0 | _ => length (split_ws text) end.

(** [c in vowels] for a one-character [c]: membership. *)
Definition count_in (set text : list Z) : nat :=
  length (List.filter (fun c => existsb (Z.eqb c) set) text).

Definition vowels : list Z := py_str "aeiouAEIOU".
Definition consonants : list Z := py_str "bcdfghjklmnpqrstvwxyzBCDFGHJKLMNPQRSTVWXYZ".

(** [count_vowels] and [count_consonants] (lines 30-36). *)
Definition count_vowels (text : list Z) : nat := count_in vowels text.
Definition count_consonants (text : list Z) : nat := count_in consonants text.

(** [reverse] (lines 53-54): [text[::-1]]. *)
Definition reverse (text : list Z) : list Z := rev text.

(** [is_palindrome] (lines 62-64). *)
Definition clean (text : list Z) : list Z :=
  concat (map lower (List.filter (fun c => negb (isspace c)) text)).

Definition is_palindrome (text : list Z) : bool :=
  bool_decide (clean text = rev (clean text)).

(** [most_common_char] (lines 38-51).  The dict [freq] keeps its keys in
    insertion order: [freq[k] = freq.get(k, 0) + 1] bumps an existing
    entry in place and appends a new one. *)
Fixpoint freq_add (k : list Z) (fr : list (list Z * nat)) : list (list Z * nat) :=
  match fr with
  | [] => [(k, 1%nat)]
  | (k', n) :: fr' =>
      if bool_decide (k' = k) then (k', S n) :: fr' else (k', n) :: freq_add k fr'
  end.

Definition freq_step (fr : list (list Z * nat)) (c : Z) : list (list Z * nat) :=
  if isspace c then fr else freq_add (lower c) fr.

Definition char_freq (text : list Z) : list (list Z * nat) := fold_left freq_step text [].

(** [max(items, key=...)]: the first item whose key no later item
    exceeds (a later item replaces the best one only when its key is
    strictly greater). *)
Fixpoint max_by_count (best : list Z * nat) (items : list (list Z * nat)) : list Z * nat :=
  match items with
  | [] => best
  | it :: its => max_by_count (if Nat.ltb (snd best) (snd it) then it else best) its
  end.

Definition most_common_char (text : list Z) : list Z :=
  match text with
  | [] => []
  | _ => match char_freq text with
         | [] => []
         | it :: its => fst (max_by_count it its)
         end
  end.

(** The number of non-whitespace characters of [text] whose lowercase
    form is [k]. *)
Definition char_count (text : list Z) (k : list Z) : nat :=
  length (List.filter (fun c => negb (isspace c) && bool_decide (lower c = k)) text).

(** The count a frequency dict records for the key [k] (the sum over its
    entries with that key). *)
Definition fsum (fr : list (list Z * nat)) (k : list Z) : nat :=
  list_sum (map snd (List.filter (fun e => bool_decide (fst e = k)) fr)).

End TextAnalyzer.

(** [count_lines] (lines 25-28). *)
Definition count_lines (text : list Z) : nat :=
  match text with [] => 0 | _ => count_occ Z.eq_dec text 10%Z + 1 end.

End PyTextAnalyzer.

Module PyLogParser.

(** The code point of ['\n']. *)
Definition newline : Z := 10%Z.

(** [LogParser.count_lines] (lines 19-21). *)
Definition count_lines (text : list Z) : nat := count_occ Z.eq_dec text newline + 1.

(** [s.split(sep)] for a one-character [sep]: the pieces between
    separators, empty ones included; [cur] is the piece being read,
    reversed. *)
Fixpoint split_sep_acc (sep : Z) (cur : list Z) (s : list Z) : list (list Z) :=
  match s with
  | [] => [rev cur]
  | c :: s' => if Z.eqb c sep then rev cur :: split_sep_acc sep [] s'
               else split_sep_acc sep (c :: cur) s'
  end.

Definition split_on (sep : Z) (s : list Z) : list (list Z) := split_sep_acc sep [] s.

(** [sub in s] for strings. *)
Fixpoint starts_with (p s : list Z) : bool :=
  match p, s with
  | [], _ => true
  | x :: p', y :: s' => Z.eqb x y && starts_with p' s'
  | _ :: _, [] => false
  end.

Fixpoint contains (p s : list Z) : bool :=
  starts_with p s || match s with [] => false | _ :: s' => contains p s' end.

Definition is_error_line (line : list Z) : bool :=
  contains (py_str "ERROR") line || contains (py_str "Error") line
  || contains (py_str "error") line.

(** [LogParser.find_errors] (lines 23-29). *)
Definition find_errors (text : list Z) : nat :=
  length (List.filter is_error_line (split_on newline text)).

Section Search.

(** [c.lower()] for a one-character string [c], and [s.lower()] for a
    whole string (the two differ in Unicode, e.g. on a final sigma). *)
Variable lower : Z -> list Z.
Variable str_lower : list Z -> list Z.

(** The inner loop of [find_pattern] (lines 65-69) at position [i]:
    [text[i + j].lower() != pattern_lower[j]] for [j] in [js], stopping at
    the first mismatch; an index out of range is an [IndexError] ([None]). *)
Fixpoint match_loop (text pattern_lower : list Z) (i : nat) (js : list nat) : option bool :=
  match js with
  | [] => Some true
  | j :: js' =>
      match text !! (i + j)%nat, pattern_lower !! j with
      | Some tc, Some pc =>
          if bool_decide (lower tc = [pc]) then match_loop text pattern_lower i js'
          else Some false
      | _, _ => None
      end
  end.

(** The outer loop (lines 63-72): [count += 1] at every matching
    position [i]. *)
Fixpoint count_loop (text pattern_lower : list Z) (pattern_len : nat) (is : list nat)
  (count : nat) : option nat :=
  match is with
  | [] => Some count
  | i :: is' =>
      match match_loop text pattern_lower i (seq 0 pattern_len) with
      | None => None
      | Some m => count_loop text pattern_lower pattern_len is' (if m then S count else count)
      end
  end.

(** Whether the inner loop finds the pattern at position [i]. *)
Definition matches (text pattern_lower : list Z) (pattern_len i : nat) : bool :=
  bool_decide (match_loop text pattern_lower i (seq 0 pattern_len) = Some true).

(** [LogParser.find_pattern] (lines 47-74); [None] is an [IndexError]. *)
Definition find_pattern (text pattern : list Z) : option nat :=
  match pattern, text with
  | [], _ | _, [] => Some 0
  | _, _ =>
      count_loop text (str_lower pattern) (length pattern)
        (seq 0 (Z.to_nat (Z.of_nat (length text) - Z.of_nat (length pattern) + 1)))
        0
  end.

(** [LogParser.search_multiple_patterns] (lines 76-81). *)
Fixpoint search_loop (text : list Z) (patterns : list (list Z))
  (results : gmap (list Z) nat) : option (gmap (list Z) nat) :=
  match patterns with
  | [] => Some results
  | p :: ps =>
      match find_pattern text p with
      | None => None
      | Some n => search_loop text ps (<[p := n]> results)
      end
  end.

Definition search_multiple_patterns (text : list Z) (patterns : list (list Z))
  : option (gmap (list Z) nat) :=
  search_loop text patterns ∅.

End Search.

End PyLogParser.

Module PyImageProcessor.

Section Brightness.

(** Python floats: their product and their [<]; [f0] and [f255] are
    [0.0] and [255.0]. *)
Variable F : Type.
Variable fmul : F -> F -> F.
Variable flt : F -> F -> bool.
Variable f0 f255 : F.

(** The builtins [min(a, b)] and [max(a, b)]: the first argument unless
    the second is strictly smaller (resp. greater). *)
Definition py_min2 (a b : F) : F := if flt b a then b else a.
Definition py_max2 (a b : F) : F := if flt a b then b else a.

(** [ImageProcessor.adjust_brightness] (lines 61-64): every pixel
    replaced, in place, by [min(255.0, max(0.0, pixel * factor))]. *)
Definition adjust_brightness (pixels : list F) (factor : F) : list F :=
  map (fun p => py_min2 f255 (py_max2 f0 (fmul p factor))) pixels.

End Brightness.

Arguments py_min2 {F}.
Arguments py_max2 {F}.
Arguments adjust_brightness {F}.

End PyImageProcessor.

(* ================================================================== *)
(** * Properties *)

Section GeneralLemmas.

Lemma assoc_assoc_set_eq {A} (fs : list (string * A)) k v :
  assoc (assoc_set fs k v) k = Some v.
Proof.
  induction fs as [|[k' v'] r IH]; simpl.
  - rewrite String.eqb_refl. reflexivity.
  - destruct (String.eqb k' k) eqn:E; simpl.
    + rewrite String.eqb_refl. reflexivity.
    + rewrite E. exact IH.
Qed.

Lemma assoc_assoc_set_ne {A} (fs : list (string * A)) k k' v :
  k <> k' -> assoc (assoc_set fs k v) k' = assoc fs k'.
Proof.
  intros Hne. induction fs as [|[k0 v0] r IH]; simpl.
  - apply String.eqb_neq in Hne. rewrite Hne. reflexivity.
  - destruct (String.eqb k0 k) eqn:E; simpl.
    + apply String.eqb_eq in E. subst k0.
      apply String.eqb_neq in Hne. rewrite Hne. reflexivity.
    + destruct (String.eqb k0 k'); [reflexivity|exact IH].
Qed.


(** A new bound instance gets an id no instance had, and nothing else in
    the heap changes. *)
Lemma alloc_fresh st v :
  wf st ->
  heap st !! next st = None /\ heap (fst (alloc st v)) !! next st = Some v /\
  (forall k, k <> next st -> heap (fst (alloc st v)) !! k = heap st !! k) /\
  wf (fst (alloc st v)).
Proof.
  intros Hwf. split; [|split; [|split]].
  - destruct (heap st !! next st) as [w|] eqn:E; [|reflexivity].
    apply Hwf in E. lia.
  - simpl. apply lookup_insert_eq.
  - intros k Hk. simpl. apply lookup_insert_ne. congruence.
  - intros k w H. simpl in *. destruct (decide (k = next st)) as [->|Hk]; [lia|].
    rewrite lookup_insert_ne in H by congruence. apply Hwf in H. lia.
Qed.






Lemma set_field_shape dcl dflt st l f hv st' :
  set_field dcl dflt st l f hv = Ok st' ->
  exists c fs fd v,
    heap st !! l = Some (NObj c fs) /\ field_decl dcl c f = Some fd /\
    f_readonly fd = false /\ to_native dcl dflt st (f_type fd) hv = Ok v /\
    st' = with_heap st (<[l := NObj c (assoc_set fs f v)]> (heap st)).
Proof.
  unfold set_field.
  destruct (heap st !! l) as [[]|]; try discriminate.
  destruct (field_decl dcl cls f) as [fd|] eqn:Hfd; [|discriminate].
  destruct (f_readonly fd) eqn:Hro; [discriminate|].
  destruct (to_native dcl dflt st (f_type fd) hv) as [v|e] eqn:Hv; simpl; [|discriminate].
  intros H; inversion H; subst. eauto 10.
Qed.

Lemma set_field_ok dcl dflt st l c fs f fd v hv :
  heap st !! l = Some (NObj c fs) -> field_decl dcl c f = Some fd ->
  f_readonly fd = false -> to_native dcl dflt st (f_type fd) hv = Ok v ->
  set_field dcl dflt st l f hv
  = Ok (with_heap st (<[l := NObj c (assoc_set fs f v)]> (heap st))).
Proof.
  intros Hl Hfd Hro Hv. unfold set_field. rewrite Hl, Hfd, Hro, Hv. reflexivity.
Qed.

Lemma get_field_ok dcl st l c fs f fd v :
  heap st !! l = Some (NObj c fs) -> field_decl dcl c f = Some fd ->
  assoc fs f = Some v -> get_field dcl st l f = Ok (to_host st (f_type fd) v).
Proof.
  intros Hl Hfd Hv. unfold get_field. rewrite Hl, Hfd, Hv. reflexivity.
Qed.

Lemma to_native_class dcl dflt st a src fsrc :
  heap st !! src = Some (NObj a fsrc) ->
  to_native dcl dflt st (TClass a) (HObj src) = Ok (NObj a fsrc).
Proof.
  intros H. simpl. unfold instance_of. rewrite H, String.eqb_refl. reflexivity.
Qed.

End GeneralLemmas.

Module Instances.

(** ** C10: separately constructed instances never share native state.
    Setting any field (of any TypeRef) on the bound instance [l] leaves
    the native object of every other bound instance [l'] unchanged. *)
Theorem set_field_other_instances_unchanged
  (dcl : string -> option ClassDecl) (dflt : string -> option (list (string * nval)))
  (st st' : hstate) (l : nat) (f : string) (hv : hval)
  (Hset : set_field dcl dflt st l f hv = Ok st') :
  forall l', l' <> l -> heap st' !! l' = heap st !! l'.
Proof.
  intros l' Hne.
  destruct (set_field_shape _ _ _ _ _ _ _ Hset) as (c & fs & fd & v & _ & _ & _ & _ & ->).
  simpl. rewrite lookup_insert_ne; congruence.
Qed.

(** ** C3: class-valued fields have copy semantics.
    (1) Reading a class-valued field yields a new bound instance holding a
    copy of the field's current native state; the parent is unchanged;
    mutating that copy through any of its setters leaves the parent
    unchanged; assigning the copy back writes its state into the parent.
    (2) Assigning any bound instance [src] of the field's class and reading
    the field back yields an instance whose native state equals [src]'s,
    field for field. *)
Theorem class_value_copy_semantics
  (dcl : string -> option ClassDecl) (dflt : string -> option (list (string * nval)))
  (st : hstate) (l : nat) (c a f : string) (fs : list (string * nval)) (fd : FieldDecl)
  (Hwf : wf st) (Hl : heap st !! l = Some (NObj c fs))
  (Hfd : field_decl dcl c f = Some fd) (Hty : f_type fd = TClass a)
  (Hrw : f_readonly fd = false) :
  (forall fsv, assoc fs f = Some (NObj a fsv) ->
     exists st1 l1,
       get_field dcl st l f = Ok (st1, HObj l1) /\ l1 <> l /\
       heap st1 !! l1 = Some (NObj a fsv) /\ heap st1 !! l = heap st !! l /\
       forall g w st2, set_field dcl dflt st1 l1 g w = Ok st2 ->
         heap st2 !! l = heap st !! l /\
         exists fs2 st3,
           heap st2 !! l1 = Some (NObj a fs2) /\
           set_field dcl dflt st2 l f (HObj l1) = Ok st3 /\
           heap st3 !! l = Some (NObj c (assoc_set fs f (NObj a fs2)))) /\
  (forall src fsrc, heap st !! src = Some (NObj a fsrc) ->
     exists st' st'' l'',
       set_field dcl dflt st l f (HObj src) = Ok st' /\
       get_field dcl st' l f = Ok (st'', HObj l'') /\
       heap st'' !! l'' = Some (NObj a fsrc)).
Proof.
  split.
  - intros fsv Hv.
    assert (Hlt : l < next st) by (eapply Hwf; eauto).
    exists (fst (alloc st (NObj a fsv))), (next st).
    rewrite (get_field_ok _ _ _ _ _ _ _ _ Hl Hfd Hv), Hty.
    split; [reflexivity|]. split; [lia|].
    split; [simpl; rewrite lookup_insert_eq; reflexivity|].
    split; [simpl; rewrite lookup_insert_ne by lia; reflexivity|].
    + intros fg w0 st2 Hset.
      pose proof (set_field_other_instances_unchanged _ _ _ _ _ _ _ Hset l) as Hpar.
      simpl in Hpar. rewrite lookup_insert_ne in Hpar by lia.
      rewrite Hpar by lia.
      destruct (set_field_shape _ _ _ _ _ _ _ Hset)
        as (c1 & fs1 & fd1 & v1 & H1 & _ & _ & _ & ->).
      simpl in H1. rewrite lookup_insert_eq in H1. inversion H1; subst c1 fs1.
      split; [reflexivity|].
      eexists (assoc_set fsv fg v1), _.
      split; [simpl; rewrite lookup_insert_eq; reflexivity|].
      split.
      * apply set_field_ok with (fd := fd).
        -- simpl. rewrite lookup_insert_ne by lia. rewrite lookup_insert_ne by lia. exact Hl.
        -- exact Hfd.
        -- exact Hrw.
        -- rewrite Hty. apply to_native_class. simpl. rewrite lookup_insert_eq. reflexivity.
      * simpl. rewrite lookup_insert_eq. reflexivity.
  - intros src fsrc Hsrc.
    assert (Hset : set_field dcl dflt st l f (HObj src)
                   = Ok (with_heap st (<[l := NObj c (assoc_set fs f (NObj a fsrc))]> (heap st)))).
    { apply set_field_ok with (fd := fd); auto.
      rewrite Hty. apply to_native_class. exact Hsrc. }
    eexists _, _, _. split; [exact Hset|].
    rewrite (get_field_ok _ _ _ c (assoc_set fs f (NObj a fsrc)) _ fd (NObj a fsrc)).
    + rewrite Hty. split; [reflexivity|]. simpl. rewrite lookup_insert_eq. reflexivity.
    + simpl. rewrite lookup_insert_eq. reflexivity.
    + exact Hfd.
    + apply assoc_assoc_set_eq.
Qed.

End Instances.

Module OverloadProofs.
Import Overload.

Lemma resolve_from_in (all rest : list MethodDecl) s m :
  In (s, m) (fst (resolve_from all rest)) <->
  In m rest /\ count_sig all m < 2 /\ s = bound_symbol all m.
Proof.
  induction rest as [|m0 rest IH]; cbn [resolve_from fst In].
  - tauto.
  - destruct (resolve_from all rest) as [tbl errs]. cbn [fst] in IH.
    destruct (Nat.leb 2 (count_sig all m0)) eqn:Hc; cbn [fst In].
    + apply Nat.leb_le in Hc. rewrite IH. split.
      * intros (? & ? & ?). tauto.
      * intros ([<-|?] & ? & ?); [lia|tauto].
    + apply Nat.leb_gt in Hc. rewrite IH. split.
      * intros [Heq|(? & ? & ?)]; [inversion Heq; subst; tauto|tauto].
      * intros ([<-|?] & ? & ->); [left; reflexivity|right; tauto].
Qed.

Lemma count_sig_le_count_name (ms : list MethodDecl) m :
  count_sig ms m <= count_name ms (m_name m).
Proof.
  unfold count_sig, count_name.
  induction ms as [|m' r IH]; simpl; [lia|].
  destruct (String.eqb (m_name m') (m_name m)); simpl; [|exact IH].
  destruct (bool_decide (tag_seq m' = tag_seq m)); simpl; lia.
Qed.

Lemma count_name_pos (ms : list MethodDecl) m :
  In m ms -> 1 <= count_name ms (m_name m).
Proof.
  unfold count_name. induction ms as [|m' r IH]; simpl; [tauto|].
  intros [->|H].
  - rewrite String.eqb_refl. simpl. lia.
  - destruct (String.eqb (m_name m') (m_name m)); simpl; [lia|auto].
Qed.

(** ** C4: bound symbols of overloaded and non-overloaded members.
    For a declaration [m] of a class with methods [ms]: every bound symbol
    of [m] is [mangle m] (base name, then "_" and one tag per parameter,
    in parameter order) when its base name is shared by two or more
    declarations, and the base name itself when the name is unique; a
    declaration with a unique name is always bound under its own name,
    and an overloaded one whose tag sequence no other declaration of the
    same name repeats is bound under its mangled name. *)
Theorem bound_symbol_rule (ms : list MethodDecl) (m : MethodDecl) (Hin : In m ms) :
  (forall s, In (s, m) (fst (resolve ms)) ->
     (2 <= count_name ms (m_name m) -> s = mangle m) /\
     (count_name ms (m_name m) = 1 -> s = m_name m)) /\
  (count_name ms (m_name m) = 1 -> In (m_name m, m) (fst (resolve ms))) /\
  (2 <= count_name ms (m_name m) -> count_sig ms m = 1 ->
     In (mangle m, m) (fst (resolve ms))).
Proof.
  unfold resolve. pose proof (count_sig_le_count_name ms m) as Hle.
  split; [|split].
  - intros s Hs. apply resolve_from_in in Hs as (_ & _ & ->).
    unfold bound_symbol. split; intros Hc.
    + apply Nat.leb_le in Hc. rewrite Hc. reflexivity.
    + rewrite Hc. reflexivity.
  - intros Hc. apply resolve_from_in. split; [exact Hin|]. split; [lia|].
    unfold bound_symbol. rewrite Hc. reflexivity.
  - intros Hc Hs. apply resolve_from_in. split; [exact Hin|]. split; [lia|].
    unfold bound_symbol. apply Nat.leb_le in Hc. rewrite Hc. reflexivity.
Qed.

End OverloadProofs.

Module Sequences.


End Sequences.

Module SmartHandles.
Import Classes.

(** A non-null smart handle crossing to the host becomes a new bound
    instance owning its pointee. *)
Lemma to_host_smart_some st own c v :
  to_host st (TSmart own c) (NHandle (Some v)) = (fst (alloc st v), HObj (next st)).
Proof. reflexivity. Qed.

(** ** C1: a SmartHandle(exclusive) value crossing to the host, as a
    field read ([get_field]) or as a method result ([invoke]), both of
    which route it through [to_host]: a null handle becomes the "no value"
    marker [HNone] and leaves the host state as it was; a non-null handle
    becomes [HObj l'], a bound instance (not an associative map) with an
    id [l'] no instance had before, which holds the pointee as its own
    native value; no other instance changes and the heap stays well
    formed. *)
Theorem smart_exclusive_to_host
  (dcl : string -> option ClassDecl) (dflt : string -> option (list (string * nval))) :
  (forall st l c fs f fd p h,
     wf st -> heap st !! l = Some (NObj c fs) -> field_decl dcl c f = Some fd ->
     f_type fd = TSmart Exclusive p -> assoc fs f = Some h ->
     (h = NHandle None -> get_field dcl st l f = Ok (st, HNone)) /\
     (forall v, h = NHandle (Some v) ->
        exists st' l',
          get_field dcl st l f = Ok (st', HObj l') /\
          heap st !! l' = None /\ heap st' !! l' = Some v /\
          (forall k, k <> l' -> heap st' !! k = heap st !! k) /\ wf st')) /\
  (forall st l md (b : body) args nargs st1 p h,
     wf st1 -> marshal_args dcl dflt st (m_params md) args = Ok nargs ->
     b l nargs st = (st1, inl h) -> m_ret md = Some (TSmart Exclusive p) ->
     (h = NHandle None -> invoke dcl dflt st l md b args = (st1, Ok HNone)) /\
     (forall v, h = NHandle (Some v) ->
        exists st' l',
          invoke dcl dflt st l md b args = (st', Ok (HObj l')) /\
          heap st1 !! l' = None /\ heap st' !! l' = Some v /\
          (forall k, k <> l' -> heap st' !! k = heap st1 !! k) /\ wf st')).
Proof.
  split.
  - intros st l c fs f fd p h Hwf Hl Hfd Hty Hh.
    rewrite (get_field_ok _ _ _ _ _ _ _ _ Hl Hfd Hh), Hty. split.
    + intros ->. reflexivity.
    + intros v ->. rewrite to_host_smart_some.
      exists (fst (alloc st v)), (next st). split; [reflexivity|].
      exact (alloc_fresh st v Hwf).
  - intros st l md b args nargs st1 p h Hwf Hargs Hb Hret.
    unfold invoke. rewrite Hargs, Hb, Hret. split.
    + intros ->. reflexivity.
    + intros v ->. rewrite to_host_smart_some.
      exists (fst (alloc st1 v)), (next st1). split; [reflexivity|].
      exact (alloc_fresh st1 v Hwf).
Qed.



End SmartHandles.

Module Calls.
Import Classes.

(** Marshaling a value out never touches the frames' resources, the host
    callables or the host log. *)
Lemma to_host_frame : forall v st t,
  live (fst (to_host st t v)) = live st /\ hfuns (fst (to_host st t v)) = hfuns st /\
  hlog (fst (to_host st t v)) = hlog st.
Proof.
  fix IH 1. intros v st t.
  destruct v as [z|q|b|s|vs|[p|]|cls fs|[f|]|]; destruct t; simpl; auto.
  - revert st. induction vs as [|x r IHr]; intros st; simpl; [auto|].
    destruct (to_host st t x) as [st1 hx] eqn:E1.
    destruct (IH x st t) as (A1 & B1 & C1). rewrite E1 in A1, B1, C1. simpl in A1, B1, C1.
    specialize (IHr st1).
    destruct (map_st (fun s x => to_host s t x) st1 r) as [st2 hr] eqn:E2.
    simpl in *. destruct IHr as (A2 & B2 & C2). split; [|split]; congruence.
Qed.

Lemma fold_marshal_frame (xs : list (typeref * nval)) (acc : hstate * list hval) :
  let st' := fst (fold_left (fun acc pa =>
                   let '(s, hs) := acc in
                   let '(s', h) := to_host s (fst pa) (snd pa) in (s', app hs [h])) xs acc) in
  live st' = live (fst acc) /\ hfuns st' = hfuns (fst acc) /\ hlog st' = hlog (fst acc).
Proof.
  revert acc. induction xs as [|[t v] r IH]; intros [s hs]; simpl; [auto|].
  destruct (to_host s t v) as [s' h] eqn:E.
  destruct (to_host_frame v s t) as (A & B & C). rewrite E in A, B, C. simpl in A, B, C.
  destruct (IH (s', app hs [h])) as (A' & B' & C'). simpl in A', B', C'.
  split; [|split]; congruence.
Qed.

(** ** C2 (as amended): a native exception with message [msg] thrown by
    a method body, once the arguments are marshaled, makes the call raise
    exactly one host error, of the single kind [RuntimeError], carrying
    [msg] unchanged (so it is non-empty exactly when [msg] is); the call
    returns normally to the host with the state the native code left.
    For Calculator.divide, whose zero-divisor message is non-empty,
    [divide(0.0)] raises that message and leaves the instance as it was,
    and a following [divide(2.0)] on it succeeds. *)
Theorem native_exception_translated
  (dcl : string -> option ClassDecl) (dflt : string -> option (list (string * nval))) :
  (forall st l md (b : body) args nargs st1 msg,
     marshal_args dcl dflt st (m_params md) args = Ok nargs ->
     b l nargs st = (st1, inr msg) ->
     invoke dcl dflt st l md b args = (st1, Err (HostErr "RuntimeError" msg))) /\
  (forall div_msg st l fs q,
     div_msg <> "" ->
     heap st !! l = Some (NObj "Calculator" fs) -> assoc fs "value" = Some (NDouble q) ->
     invoke Classes.decl_of Classes.default_of st l (meth "divide" [dbl] (Some dbl))
       (Calculator_divide div_msg) [HFloat 0] = (st, Err (HostErr "RuntimeError" div_msg)) /\
     snd (invoke Classes.decl_of Classes.default_of st l (meth "divide" [dbl] (Some dbl))
            (Calculator_divide div_msg) [HFloat 2]) = Ok (HFloat (q / 2))).
Proof.
  split.
  - intros st l md b args nargs st1 msg Hargs Hthrow.
    unfold invoke. rewrite Hargs, Hthrow. reflexivity.
  - intros div_msg st l fs q Hne Hl Hv. split.
    + reflexivity.
    + unfold invoke. simpl. unfold nbind, nget, nset. rewrite Hl, Hv. simpl.
      rewrite Hl. simpl. rewrite lookup_insert_eq, assoc_assoc_set_eq. reflexivity.
Qed.

(** An exception raised at the hole of a native frame context unwinds
    every enclosing step and resource frame: the code after the hole is
    skipped, each resource is released, and the exception reaches the
    body's boundary unchanged. *)
Lemma plug_raise (e : NM nval) : forall C st s,
  reach C st = Some s ->
  forall s1 msg, e s = (s1, inr msg) -> live s1 = live s ->
  exists st', plug C e st = (st', inr msg) /\ live st' = live st.
Proof.
  induction C as [|m K IH|r C IH|C IH k]; intros st s Hr s1 msg He Hlive;
    simpl in Hr |- *.
  - inversion Hr; subst s. eauto.
  - unfold nbind. destruct (m st) as [s0 [x|err]]; [|discriminate].
    destruct (List.list_eq_dec Nat.eq_dec (live s0) (live st)) as [Heq|]; [|discriminate].
    destruct (IH x s0 s Hr s1 msg He Hlive) as (st' & Hp & Hl').
    rewrite Hp. exists st'. split; [reflexivity|congruence].
  - unfold scoped. destruct (IH _ _ Hr s1 msg He Hlive) as (st' & Hp & Hl').
    rewrite Hp. simpl in Hl'. eexists. split; [reflexivity|]. simpl. rewrite Hl'. reflexivity.
  - unfold nbind. destruct (IH st s Hr s1 msg He Hlive) as (st' & Hp & Hl').
    rewrite Hp. eauto.
Qed.

(** A callback that raises on the arguments it is called with makes the
    adapter throw the callback's message, holding no new resource. *)
Lemma call_host_raise dcl dflt s i fn ret ps cargs kind msg lg :
  hfuns s !! i = Some fn ->
  fn (snd (marshal_out s ps cargs)) (hlog (fst (marshal_out s ps cargs)))
  = (lg, HRaise kind msg) ->
  call_host dcl dflt (NFunc (Some i)) ret ps cargs s
  = (with_log (fst (marshal_out s ps cargs)) lg, inr msg) /\
  live (with_log (fst (marshal_out s ps cargs)) lg) = live s.
Proof.
  intros Hfn Hraise.
  assert (Hfn' : @lookup nat (list hval -> list hval -> list hval * host_outcome) _ _
                   i (hfuns s) = Some fn) by exact Hfn.
  pose proof (fold_marshal_frame (combine ps cargs) (s, [])) as (A & _ & _).
  fold (marshal_out s ps cargs) in A. simpl in A.
  unfold call_host. rewrite Hfn'.
  destruct (marshal_out s ps cargs) as [s0 hargs]. simpl in Hraise, A |- *.
  rewrite Hraise. split; [reflexivity|]. exact A.
Qed.

(** ** C5 (as amended): take any method body that, in the state of the
    call, runs as native code [C] around a call of the callback [i] with
    no handler in between: steps before the call ([reach] gives the state
    [s] in which the callback is called), resource frames enclosing it,
    code after it.  If the callback raises a host exception of any kind
    [kind] with message [msg] on the arguments it receives, the exception
    unwinds the native frames (the code after the call is skipped, every
    resource they hold is released) and surfaces at the host call site as
    a [RuntimeError] carrying [msg] unchanged; the original kind is not
    kept. *)
Theorem callback_error_through_frame
  (dcl : string -> option ClassDecl) (dflt : string -> option (list (string * nval)))
  (st : hstate) (l : nat) (md : MethodDecl) (b : body) (args : list hval)
  (nargs : list nval) (C : frame) (s : hstate) (i : nat) (fn : hfun)
  (ret : option typeref) (ps : list typeref) (cargs : list nval)
  (kind msg : string) (lg : list hval)
  (Hargs : marshal_args dcl dflt st (m_params md) args = Ok nargs)
  (Hbody : b l nargs st = plug C (call_host dcl dflt (NFunc (Some i)) ret ps cargs) st)
  (Hreach : reach C st = Some s)
  (Hfn : hfuns s !! i = Some fn)
  (Hraise : fn (snd (marshal_out s ps cargs)) (hlog (fst (marshal_out s ps cargs)))
            = (lg, HRaise kind msg)) :
  exists st',
    invoke dcl dflt st l md b args = (st', Err (HostErr "RuntimeError" msg)) /\
    live st' = live st.
Proof.
  destruct (call_host_raise dcl dflt s i fn ret ps cargs kind msg lg Hfn Hraise) as [Hc Hlc].
  destruct (plug_raise _ C st s Hreach _ msg Hc Hlc) as (st' & Hp & Hl').
  exists st'. unfold invoke. rewrite Hargs, Hbody, Hp. split; [reflexivity|exact Hl'].
Qed.

(** A slot holding an empty [std::function] is reported unset. *)
Lemma unset_of_slot st l c fs sm :
  In sm EventEmitter_slots -> heap st !! l = Some (NObj c fs) ->
  assoc fs (sl_field sm) = Some (NFunc None) -> callback_unset st l sm.
Proof.
  intros Hin Hl.
  destruct Hin as [<-|[<-|[<-|[]]]]; cbn [sl_field]; intros Hf; unfold callback_unset;
    cbn [sl_has sl_emit fst snd];
    (split; [unfold invoke, EventEmitter_has_data_callback, EventEmitter_has_message_callback,
               EventEmitter_has_compute_callback, EventEmitter_has_callback, nbind, nget;
             simpl; rewrite Hl, Hf; reflexivity|]);
    try exact I;
    intros args nargs Hargs; unfold invoke; rewrite Hargs;
    unfold EventEmitter_emit_data, EventEmitter_emit_message, EventEmitter_fire, nbind, nget;
    rewrite Hl, Hf; reflexivity.
Qed.

(** ** C9: clearing a Function-typed callback slot.
    (1) Assigning [HNone] to any writable Function-typed field stores an
    empty [std::function], which reads back as [HNone].
    (2) On an EventEmitter in any state, each of its callback slots
    (data, message, compute) is cleared by assigning [HNone] to it and by
    its setter [on_*(None)], and [clear_callbacks()] clears all three:
    afterwards [has_*_callback()] reports false and the slot's emission
    ([emit_data], [emit_message]), with any well-typed arguments, returns
    leaving the host state (instances, host log, resources) exactly as it
    was ([callback_unset]). *)
Theorem callback_slot_cleared
  (dcl : string -> option ClassDecl) (dflt : string -> option (list (string * nval))) :
  (forall st l c fs f fd ret ps,
     heap st !! l = Some (NObj c fs) -> field_decl dcl c f = Some fd ->
     f_type fd = TFunc ret ps -> f_readonly fd = false ->
     exists st', set_field dcl dflt st l f HNone = Ok st' /\
       heap st' !! l = Some (NObj c (assoc_set fs f (NFunc None))) /\
       get_field dcl st' l f = Ok (st', HNone)) /\
  (forall st l fs,
     heap st !! l = Some (NObj "EventEmitter" fs) ->
     (forall sm, In sm EventEmitter_slots ->
        (exists st1,
           set_field Classes.decl_of Classes.default_of st l (sl_field sm) HNone = Ok st1 /\
           callback_unset st1 l sm) /\
        (exists st1,
           invoke Classes.decl_of Classes.default_of st l (fst (sl_on sm)) (snd (sl_on sm))
             [HNone] = (st1, Ok HNone) /\
           callback_unset st1 l sm)) /\
     (exists st1,
        invoke Classes.decl_of Classes.default_of st l
          (meth "clear_callbacks" [] None) EventEmitter_clear_callbacks [] = (st1, Ok HNone) /\
        forall sm, In sm EventEmitter_slots -> callback_unset st1 l sm)).
Proof.
  split.
  - intros st l c fs f fd ret ps Hl Hfd Hty Hrw.
    assert (Hc : to_native dcl dflt st (f_type fd) HNone = Ok (NFunc None))
      by (rewrite Hty; reflexivity).
    eexists. split; [exact (set_field_ok _ _ _ _ _ _ _ _ _ _ Hl Hfd Hrw Hc)|].
    split; [simpl; rewrite lookup_insert_eq; reflexivity|].
    rewrite (get_field_ok _ _ _ c (assoc_set fs f (NFunc None)) _ fd (NFunc None)).
    + rewrite Hty. reflexivity.
    + simpl. rewrite lookup_insert_eq. reflexivity.
    + exact Hfd.
    + apply assoc_assoc_set_eq.
  - intros st l fs Hl. split.
    + intros sm Hin.
      assert (Hset : forall st1,
                 st1 = with_heap st (<[l := NObj "EventEmitter"
                                             (assoc_set fs (sl_field sm) (NFunc None))]>
                                      (heap st)) ->
                 callback_unset st1 l sm).
      { intros st1 ->. apply (unset_of_slot _ _ "EventEmitter"
                                (assoc_set fs (sl_field sm) (NFunc None)) _ Hin).
        - simpl. apply lookup_insert_eq.
        - apply assoc_assoc_set_eq. }
      split; eexists; (split; [|apply Hset; reflexivity]);
        destruct Hin as [<-|[<-|[<-|[]]]];
        unfold set_field, invoke, EventEmitter_on_data, EventEmitter_on_message,
          EventEmitter_on_compute, EventEmitter_on, nbind, nset;
        simpl; rewrite Hl; reflexivity.
    + eexists. split.
      * unfold invoke, EventEmitter_clear_callbacks, nbind, nset. simpl. rewrite Hl.
        simpl. rewrite lookup_insert_eq. simpl. rewrite lookup_insert_eq. reflexivity.
      * intros sm Hin. eapply unset_of_slot; [exact Hin|simpl; apply lookup_insert_eq|].
        destruct Hin as [<-|[<-|[<-|[]]]]; simpl.
        -- rewrite !assoc_assoc_set_ne by discriminate. apply assoc_assoc_set_eq.
        -- rewrite assoc_assoc_set_ne by discriminate. apply assoc_assoc_set_eq.
        -- apply assoc_assoc_set_eq.
Qed.

End Calls.

Module Constructors.
Import Classes.

(** ** C6: constructor dispatch of Rectangle, from any host state:
    [Rectangle()] has width 0.0, height 0.0 and name "unnamed";
    [Rectangle(5.0, 3.0)] has name "rectangle" and area 15.0;
    [Rectangle(10.0, 20.0, "my_rect")] has perimeter 60.0. *)
Theorem rectangle_constructor_dispatch (st : hstate) :
  (exists st1 l1,
     construct Classes.decl_of Classes.default_of st Rectangle_ctors [] = Ok (st1, l1) /\
     field_value Classes.decl_of st1 l1 "width" = Some (HFloat 0) /\
     field_value Classes.decl_of st1 l1 "height" = Some (HFloat 0) /\
     field_value Classes.decl_of st1 l1 "name" = Some (HStr "unnamed")) /\
  (exists st2 l2,
     construct Classes.decl_of Classes.default_of st Rectangle_ctors [HFloat 5; HFloat 3]
       = Ok (st2, l2) /\
     field_value Classes.decl_of st2 l2 "name" = Some (HStr "rectangle") /\
     snd (invoke Classes.decl_of Classes.default_of st2 l2 (meth "area" [] (Some dbl))
            Rectangle_area []) = Ok (HFloat 15)) /\
  (exists st3 l3,
     construct Classes.decl_of Classes.default_of st Rectangle_ctors
       [HFloat 10; HFloat 20; HStr "my_rect"] = Ok (st3, l3) /\
     snd (invoke Classes.decl_of Classes.default_of st3 l3 (meth "perimeter" [] (Some dbl))
            Rectangle_perimeter []) = Ok (HFloat 60)).
Proof.
  split; [|split]; do 2 eexists; (split; [reflexivity|]);
    unfold field_value, get_field, invoke, Rectangle_area, Rectangle_perimeter, nbind, nget,
      rect;
    do 3 (simpl; rewrite ?lookup_insert_eq); repeat split; reflexivity.
Qed.

End Constructors.

(* ------------------------------------------------------------------ *)
(** * Properties of the pure-Python classes of the examples *)

Module PyCalculatorProofs.
Import PyCalculator.
Local Open Scope Z_scope.

Lemma gcd_loop_spec : forall fuel a b,
  Z.abs b < Z.of_nat fuel ->
  exists g, gcd_loop fuel a b = Some g /\ Z.abs g = Z.gcd a b.
Proof.
  induction fuel as [|f IH]; intros a b Hf; [lia|].
  rewrite Nat2Z.inj_succ in Hf. simpl.
  destruct (Z.eqb_spec b 0) as [->|Hb].
  - exists a. split; [reflexivity|]. rewrite Z.gcd_0_r. reflexivity.
  - assert (Hm : Z.abs (a mod b) < Z.abs b).
    { destruct (Z_lt_le_dec 0 b) as [Hp|Hn].
      - pose proof (Z.mod_pos_bound a b Hp). lia.
      - assert (Hneg : b < 0) by lia. pose proof (Z.mod_neg_bound a b Hneg). lia. }
    destruct (IH b (a mod b)) as (g & Hg & Ha); [lia|].
    exists g. split; [exact Hg|].
    rewrite Ha, Z.gcd_comm, Z.gcd_mod by exact Hb. apply Z.gcd_comm.
Qed.

(** ** [gcd] always terminates, and its result is the greatest common
    divisor up to sign: [|gcd a b| = gcd(a, b)] for all Python ints (the
    sign follows the last non-zero divisor, so [gcd(4, -6) = -2]). *)
Theorem gcd_abs_is_gcd (a b : Z) :
  exists g, gcd a b = Some g /\ Z.abs g = Z.gcd a b.
Proof.
  apply gcd_loop_spec. rewrite Nat2Z.inj_succ, Z2Nat.id by lia. lia.
Qed.

(** [lcm] raises [ZeroDivisionError] exactly when both arguments are
    zero; otherwise it returns, up to sign, the least common multiple. *)
Theorem lcm_spec (a b : Z) :
  (a = 0 /\ b = 0 /\ lcm a b = Raise "ZeroDivisionError") \/
  ((a <> 0 \/ b <> 0) /\ exists l, lcm a b = Ret l /\ Z.abs l = Z.lcm a b).
Proof.
  destruct (gcd_abs_is_gcd a b) as (g & Hg & Ha).
  unfold lcm. rewrite Hg.
  destruct (Z.eqb_spec g 0) as [->|Hg0].
  - left. simpl in Ha. symmetry in Ha. apply Z.gcd_eq_0 in Ha. tauto.
  - right. split.
    + destruct (Z.eq_dec a 0) as [->|Ha0]; [|left; exact Ha0].
      destruct (Z.eq_dec b 0) as [->|Hb0]; [|right; exact Hb0].
      exfalso. apply Hg0. apply Z.abs_0_iff. rewrite Ha. reflexivity.
    + eexists. split; [reflexivity|].
      unfold Z.lcm. destruct (Z.gcd_divide_r a b) as [k Hk].
      set (d := Z.gcd a b) in *.
      assert (Hd : d <> 0) by (intros E; apply Hg0, Z.abs_0_iff; lia).
      rewrite Hk, Z.div_mul by exact Hd.
      destruct (Z.le_gt_cases 0 g) as [Hpos|Hneg].
      * rewrite Z.abs_eq in Ha by exact Hpos. rewrite <- Ha.
        replace (a * (k * g)) with (a * k * g) by ring.
        rewrite Z.div_mul by exact Hg0. reflexivity.
      * rewrite Z.abs_neq in Ha by lia.
        replace (a * (k * d)) with (- (a * k) * g) by lia.
        rewrite Z.div_mul by exact Hg0. rewrite Z.abs_opp. reflexivity.
Qed.

Lemma fib_loop_rec : forall k p c,
  fib_loop (S (S k)) p c = fib_loop (S k) p c + fib_loop k p c.
Proof.
  induction k as [|k IH]; intros p c.
  - simpl. ring.
  - change (fib_loop (S (S (S k))) p c) with (fib_loop (S (S k)) c (p + c)).
    rewrite IH. reflexivity.
Qed.

(** [fibonacci] follows the Fibonacci recurrence from 0 on:
    [fibonacci(n + 2) = fibonacci(n + 1) + fibonacci(n)] for [n >= 0]. *)
Theorem fibonacci_recurrence (n : Z) (Hn : 0 <= n) :
  fibonacci (n + 2) = fibonacci (n + 1) + fibonacci n.
Proof.
  unfold fibonacci.
  destruct (Z.eqb_spec n 0) as [->|Hn0].
  - reflexivity.
  - rewrite (proj2 (Z.leb_gt (n + 2) 1)) by lia.
    rewrite (proj2 (Z.leb_gt (n + 1) 1)) by lia.
    destruct (Z.leb_spec n 1) as [H1|H1].
    + assert (n = 1) as -> by lia. reflexivity.
    + replace (Z.to_nat (n + 2 - 1)) with (S (S (Z.to_nat (n - 1)))) by lia.
      replace (Z.to_nat (n + 1 - 1)) with (S (Z.to_nat (n - 1))) by lia.
      apply fib_loop_rec.
Qed.

End PyCalculatorProofs.

Module PyPrimeProofs.
Import PyCalculator.
Local Open Scope Z_scope.

Lemma not_divides_mod (d n : Z) : d <> 0 -> n mod d <> 0 -> ~ (d | n).
Proof. intros Hd Hm Hdiv. apply Hm. apply Z.mod_divide; assumption. Qed.

Lemma divides_mod (d n : Z) : d <> 0 -> (d | n) -> n mod d = 0.
Proof. intros Hd Hdiv. apply Z.mod_divide; assumption. Qed.

(** A proper divisor rules out primality. *)
Lemma proper_divisor_not_prime (d n : Z) : 1 < d < n -> (d | n) -> ~ Z.prime n.
Proof. intros Hd Hdiv [_ Hp]. exact (Hp d Hd Hdiv). Qed.

(** A factor of a multiple of 2 or 3 would make [n] even or a multiple of 3. *)
Lemma small_factor (k d n : Z) : (k | d) -> (d | n) -> k <> 0 -> n mod k <> 0 -> False.
Proof.
  intros Hkd Hdn Hk Hm. apply Hm. apply Z.mod_divide; [exact Hk|].
  eapply Z.divide_trans; eassumption.
Qed.

Lemma prime_loop_spec : forall fuel n i,
  3 < n -> 5 <= i -> i mod 6 = 5 -> n mod 2 <> 0 -> n mod 3 <> 0 ->
  (forall d, 1 < d < i -> ~ (d | n)) ->
  Z.max 0 (n - i) < Z.of_nat fuel ->
  exists r, prime_loop fuel n i = Some r /\ (r = true <-> Z.prime n).
Proof.
  induction fuel as [|f IH]; intros n i Hn Hi Hi6 H2 H3 Hinv Hf; [lia|].
  rewrite Nat2Z.inj_succ in Hf. simpl.
  destruct (Z.leb_spec (i * i) n) as [Hii|Hii].
  - destruct (Z.eqb_spec (n mod i) 0) as [Hm|Hm]; simpl.
    { exists false. split; [reflexivity|]. split; [discriminate|].
      intros Hp. exfalso. apply (proper_divisor_not_prime i n); [nia| |exact Hp].
      apply Z.mod_divide; [lia|exact Hm]. }
    destruct (Z.eqb_spec (n mod (i + 2)) 0) as [Hm2|Hm2].
    { exists false. split; [reflexivity|]. split; [discriminate|].
      intros Hp. exfalso. apply (proper_divisor_not_prime (i + 2) n); [nia| |exact Hp].
      apply Z.mod_divide; [lia|exact Hm2]. }
    apply IH; try assumption.
    + lia.
    + replace (i + 6) with (i + 1 * 6) by ring. rewrite Z_mod_plus_full. exact Hi6.
    + pose proof (Z.div_mod i 6 ltac:(lia)) as Hq. rewrite Hi6 in Hq.
      set (q := i / 6) in Hq.
      intros d Hd Hdn.
      destruct (Z_lt_le_dec d i) as [Hlt|Hge]; [exact (Hinv d (conj (proj1 Hd) Hlt) Hdn)|].
      assert (Hc : d = i \/ d = i + 1 \/ d = i + 2 \/ d = i + 3 \/ d = i + 4 \/ d = i + 5)
        by lia.
      destruct Hc as [-> | [-> | [-> | [-> | [-> | ->]]]]].
      * exact (not_divides_mod i n ltac:(lia) Hm Hdn).
      * apply (small_factor 2 (i + 1) n); [exists (3 * q + 3); lia|exact Hdn|lia|exact H2].
      * exact (not_divides_mod (i + 2) n ltac:(lia) Hm2 Hdn).
      * apply (small_factor 2 (i + 3) n); [exists (3 * q + 4); lia|exact Hdn|lia|exact H2].
      * apply (small_factor 3 (i + 4) n); [exists (2 * q + 3); lia|exact Hdn|lia|exact H3].
      * apply (small_factor 2 (i + 5) n); [exists (3 * q + 5); lia|exact Hdn|lia|exact H2].
    + nia.
  - exists true. split; [reflexivity|]. split; [intros _|reflexivity].
    split; [lia|]. intros d Hd [e He].
    assert (Hd0 : 0 < d) by lia.
    destruct (Z_lt_le_dec d i) as [Hlt|Hge].
    + exact (Hinv d (conj (proj1 Hd) Hlt) (ex_intro _ e He)).
    + apply (Hinv e).
      * split; nia.
      * exists d. lia.
Qed.

(** [is_prime] always terminates and answers [True] exactly on the
    prime numbers (every int at most 1, negative ones included, is not
    prime). *)
Theorem is_prime_correct (n : Z) :
  exists r, is_prime n = Some r /\ (r = true <-> Z.prime n).
Proof.
  unfold is_prime.
  destruct (Z.leb_spec n 1) as [H1|H1].
  { exists false. split; [reflexivity|]. split; [discriminate|].
    intros [Hp _]. lia. }
  destruct (Z.leb_spec n 3) as [H3|H3].
  { exists true. split; [reflexivity|]. split; [intros _|reflexivity].
    assert (n = 2 \/ n = 3) as [->| ->] by lia; [exact Z.prime_2|exact Z.prime_3]. }
  destruct (Z.eqb_spec (n mod 2) 0) as [Hm2|Hm2]; cbn [orb].
  { exists false. split; [reflexivity|]. split; [discriminate|].
    intros Hp. exfalso. apply (proper_divisor_not_prime 2 n); [lia| |exact Hp].
    apply Z.mod_divide; [lia|exact Hm2]. }
  destruct (Z.eqb_spec (n mod 3) 0) as [Hm3|Hm3]; cbn [orb].
  { exists false. split; [reflexivity|]. split; [discriminate|].
    intros Hp. exfalso. apply (proper_divisor_not_prime 3 n); [lia| |exact Hp].
    apply Z.mod_divide; [lia|exact Hm3]. }
  apply prime_loop_spec; try assumption; try lia; [reflexivity|].
  intros d Hd Hdn.
  assert (Hc : d = 2 \/ d = 3 \/ d = 4) by lia.
  destruct Hc as [-> | [-> | ->]].
  - exact (not_divides_mod 2 n ltac:(lia) Hm2 Hdn).
  - exact (not_divides_mod 3 n ltac:(lia) Hm3 Hdn).
  - apply (small_factor 2 4 n); [exists 2; lia|exact Hdn|lia|exact Hm2].
Qed.

End PyPrimeProofs.

Module PyTextAnalyzerProofs.
Import PyTextAnalyzer.

Lemma vowel_not_consonant (c : Z) :
  existsb (Z.eqb c) vowels = true -> existsb (Z.eqb c) consonants = false.
Proof.
  intros Hv. apply existsb_exists in Hv as (x & Hx & Hcx).
  apply Z.eqb_eq in Hcx. subst x. vm_compute in Hx.
  repeat (destruct Hx as [<- | Hx]; [reflexivity|]). destruct Hx.
Qed.

(** No character is counted both as a vowel and as a consonant: the two
    counts add up to at most [count_chars]. *)
Theorem vowels_consonants_le_chars (text : list Z) :
  (count_vowels text + count_consonants text <= count_chars text)%nat.
Proof.
  unfold count_vowels, count_consonants, count_in, count_chars.
  induction text as [|c t IH]; [simpl; lia|].
  cbn [List.filter length].
  destruct (existsb (Z.eqb c) vowels) eqn:Ev.
  - rewrite (vowel_not_consonant c Ev). cbn [length]. lia.
  - destruct (existsb (Z.eqb c) consonants); cbn [length]; lia.
Qed.

Section WithTables.
Variable isspace : Z -> bool.
Variable lower : Z -> list Z.

Lemma split_ws_acc_app (c : Z) (t : list Z) :
  isspace c = true ->
  forall s cur, split_ws_acc isspace cur (s ++ c :: t)%list
                = (split_ws_acc isspace cur s ++ split_ws isspace t)%list.
Proof.
  intros Hc s. induction s as [|x s IH]; intros cur; simpl.
  - rewrite Hc. destruct cur; reflexivity.
  - destruct (isspace x); [destruct cur; simpl; rewrite IH; reflexivity|apply IH].
Qed.

Lemma count_words_split (text : list Z) :
  count_words isspace text = length (split_ws isspace text).
Proof. destruct text; reflexivity. Qed.

Lemma filter_rev_list {A} (f : A -> bool) (l : list A) :
  List.filter f (rev l) = rev (List.filter f l).
Proof.
  induction l as [|x l IH]; simpl; [reflexivity|].
  rewrite List.filter_app, IH. simpl. destruct (f x); simpl; [reflexivity|apply app_nil_r].
Qed.

Lemma concat_rev_singletons (L : list (list Z)) :
  Forall (fun x => length x = 1%nat) L -> concat (rev L) = rev (concat L).
Proof.
  induction 1 as [|x L Hx _ IH]; simpl; [reflexivity|].
  rewrite List.concat_app, IH. simpl. rewrite app_nil_r, rev_app_distr.
  destruct x as [|a [|b r]]; simpl in Hx; try lia. reflexivity.
Qed.

Lemma clean_reverse (text : list Z) :
  forallb (fun c => Nat.eqb (length (lower c)) 1) text = true ->
  clean isspace lower (reverse text) = rev (clean isspace lower text).
Proof.
  intros H. unfold clean, reverse.
  rewrite filter_rev_list, List.map_rev. apply concat_rev_singletons.
  apply List.Forall_map, List.Forall_forall. intros c Hc.
  apply filter_In in Hc as [Hc _].
  rewrite forallb_forall in H. apply Nat.eqb_eq, H, Hc.
Qed.

Lemma fsum_freq_add (k k2 : list Z) (fr : list (list Z * nat)) :
  fsum (freq_add k fr) k2 = (fsum fr k2 + if bool_decide (k = k2) then 1 else 0)%nat.
Proof.
  unfold fsum. induction fr as [|[k' n] fr IH]; simpl.
  - case_bool_decide; simpl; lia.
  - destruct (decide (k' = k)) as [->|Hne].
    + rewrite (bool_decide_true (k = k)) by reflexivity. simpl.
      destruct (decide (k = k2)) as [->|Hne2].
      * rewrite !bool_decide_true by reflexivity. simpl. lia.
      * rewrite !bool_decide_false by exact Hne2. simpl. lia.
    + rewrite (bool_decide_false (k' = k)) by exact Hne. simpl.
      destruct (decide (k' = k2)) as [->|Hne2].
      * rewrite (bool_decide_true (k2 = k2)) by reflexivity. simpl. rewrite IH. lia.
      * rewrite (bool_decide_false (k' = k2)) by exact Hne2. exact IH.
Qed.

Lemma keys_freq_add (k k2 : list Z) (fr : list (list Z * nat)) :
  In k2 (map fst (freq_add k fr)) <-> k2 = k \/ In k2 (map fst fr).
Proof.
  induction fr as [|[k' n] fr IH]; simpl.
  - intuition.
  - case_bool_decide; subst; simpl; [intuition|]. rewrite IH. intuition.
Qed.

Lemma nodup_freq_add (k : list Z) (fr : list (list Z * nat)) :
  List.NoDup (map fst fr) -> List.NoDup (map fst (freq_add k fr)).
Proof.
  induction fr as [|[k' n] fr IH]; simpl; intros Hnd.
  - constructor; [intros []|constructor].
  - inversion Hnd as [|? ? Hnin Hnd']; subst.
    case_bool_decide; subst; simpl; constructor; auto.
    rewrite keys_freq_add. intros [->|Hin]; auto.
Qed.

Lemma fsum_absent (fr : list (list Z * nat)) (k : list Z) :
  ~ In k (map fst fr) -> fsum fr k = 0%nat.
Proof.
  unfold fsum. induction fr as [|[k' n'] fr IH]; simpl; [reflexivity|].
  intros Hnin. case_bool_decide; [tauto|]. apply IH. tauto.
Qed.

Lemma fsum_entry (fr : list (list Z * nat)) (k : list Z) (n : nat) :
  List.NoDup (map fst fr) -> In (k, n) fr -> fsum fr k = n.
Proof.
  induction fr as [|[k' n'] fr IH]; simpl; [tauto|].
  intros Hnd Hin. inversion Hnd as [|? ? Hnin Hnd']; subst.
  unfold fsum; simpl.
  destruct Hin as [Heq|Hin].
  - inversion Heq; subst. case_bool_decide; [|congruence]. simpl.
    fold (fsum fr k). rewrite fsum_absent by exact Hnin. lia.
  - case_bool_decide; subst.
    + exfalso. apply Hnin. apply (in_map fst) in Hin. exact Hin.
    + fold (fsum fr k). apply IH; assumption.
Qed.

Lemma freq_fold_spec (text : list Z) : forall fr,
  List.NoDup (map fst fr) ->
  List.NoDup (map fst (fold_left (freq_step isspace lower) text fr)) /\
  (forall k, fsum (fold_left (freq_step isspace lower) text fr) k
             = (fsum fr k + char_count isspace lower text k)%nat) /\
  (forall k, In k (map fst (fold_left (freq_step isspace lower) text fr)) <->
             In k (map fst fr) \/
             exists c, In c text /\ isspace c = false /\ lower c = k).
Proof.
  induction text as [|c t IH]; intros fr Hnd; cbn [fold_left].
  - split; [exact Hnd|]. split; [intros k; unfold char_count; simpl; lia|].
    intros k. split; [tauto|]. intros [H|(c & [] & _)]. exact H.
  - destruct (isspace c) eqn:Hc.
    + replace (freq_step isspace lower fr c) with fr
        by (unfold freq_step; rewrite Hc; reflexivity).
      destruct (IH fr Hnd) as (A & B & C). split; [exact A|]. split.
      * intros k. rewrite B. unfold char_count. simpl. rewrite Hc. simpl. reflexivity.
      * intros k. rewrite C. split.
        -- intros [H|(c' & H1 & H2 & H3)]; [left; exact H|right; exists c'; simpl; auto].
        -- intros [H|(c' & [<-|H1] & H2 & H3)]; [left; exact H|congruence|].
           right. exists c'. auto.
    + replace (freq_step isspace lower fr c) with (freq_add (lower c) fr)
        by (unfold freq_step; rewrite Hc; reflexivity).
      destruct (IH (freq_add (lower c) fr) (nodup_freq_add _ _ Hnd)) as (A & B & C).
      split; [exact A|]. split.
      * intros k. rewrite B, fsum_freq_add. unfold char_count. simpl. rewrite Hc. simpl.
        case_bool_decide; simpl; lia.
      * intros k. rewrite C, keys_freq_add. split.
        -- intros [[->|H]|(c' & H1 & H2 & H3)].
           ++ right. exists c. simpl. auto.
           ++ left. exact H.
           ++ right. exists c'. simpl. auto.
        -- intros [H|(c' & [<-|H1] & H2 & H3)].
           ++ left. right. exact H.
           ++ left. left. congruence.
           ++ right. exists c'. auto.
Qed.

Lemma max_by_count_spec (items : list (list Z * nat)) : forall best,
  (max_by_count best items = best \/ In (max_by_count best items) items) /\
  (forall e, In e (best :: items) -> (snd e <= snd (max_by_count best items))%nat).
Proof.
  induction items as [|it its IH]; intros best; simpl.
  - split; [left; reflexivity|]. intros e [<-|[]]. lia.
  - destruct (IH (if Nat.ltb (snd best) (snd it) then it else best)) as [A B].
    destruct (Nat.ltb_spec (snd best) (snd it)) as [Hlt|Hge].
    + split; [destruct A as [->|A]; right; [left|right]; auto|].
      intros e [<-|[<-|He]].
      * specialize (B it (or_introl eq_refl)). lia.
      * apply B. left. reflexivity.
      * apply B. right. exact He.
    + split; [destruct A as [->|A]; [left|right; right]; auto|].
      intros e [<-|[<-|He]].
      * apply B. left. reflexivity.
      * specialize (B best (or_introl eq_refl)). lia.
      * apply B. right. exact He.
Qed.

(** Joining two texts with a whitespace character adds their word
    counts. *)
Theorem count_words_join (s t : list Z) (c : Z) (Hc : isspace c = true) :
  count_words isspace (s ++ c :: t)%list = (count_words isspace s + count_words isspace t)%nat.
Proof.
  rewrite !count_words_split. unfold split_ws at 1.
  rewrite (split_ws_acc_app c t Hc s []), List.length_app. reflexivity.
Qed.

(** When every character lowers to a single character, a text and its
    [reverse] are palindromes together. *)
Theorem palindrome_of_reverse (text : list Z)
  (Hone : forallb (fun c => Nat.eqb (length (lower c)) 1) text = true) :
  is_palindrome isspace lower (reverse text) = is_palindrome isspace lower text.
Proof.
  unfold is_palindrome. rewrite (clean_reverse text Hone), List.rev_involutive.
  apply bool_decide_ext. split; intros H.
  - rewrite <- H at 2. rewrite List.rev_involutive. reflexivity.
  - rewrite H at 1. rewrite List.rev_involutive. reflexivity.
Qed.

(** [most_common_char] returns [''] on a text of whitespace only (the
    empty text included); otherwise it returns the lowercase form of a
    non-whitespace character of the text, and no non-whitespace
    character's lowercase form occurs more often. *)
Theorem most_common_char_spec (text : list Z) :
  (forallb isspace text = true -> most_common_char isspace lower text = []) /\
  (existsb (fun c => negb (isspace c)) text = true ->
   (exists c, In c text /\ isspace c = false /\ lower c = most_common_char isspace lower text) /\
   (forall c, In c text -> isspace c = false ->
      (char_count isspace lower text (lower c)
       <= char_count isspace lower text (most_common_char isspace lower text))%nat)).
Proof.
  destruct (freq_fold_spec text [] (List.NoDup_nil _)) as (Hnd & Hsum & Hkeys).
  fold (char_freq isspace lower text) in Hnd, Hsum, Hkeys.
  split.
  - intros Hall. unfold most_common_char. destruct text as [|x r]; [reflexivity|]. cbv iota beta.
    destruct (char_freq isspace lower (x :: r)) as [|it its] eqn:Hfr; [reflexivity|].
    exfalso. destruct (proj1 (Hkeys (fst it))) as [[]|(c & Hc & Hsp & _)].
    + simpl. left. reflexivity.
    + rewrite forallb_forall in Hall. rewrite Hall in Hsp by exact Hc. discriminate.
  - intros Hex. apply existsb_exists in Hex as (c0 & Hc0 & Hsp0).
    apply negb_true_iff in Hsp0.
    assert (Hk0 : In (lower c0) (map fst (char_freq isspace lower text)))
      by (apply Hkeys; right; exists c0; auto).
    unfold most_common_char. destruct text as [|x r]; [destruct Hc0|]. cbv iota beta.
    destruct (char_freq isspace lower (x :: r)) as [|it its] eqn:Hfr; [destruct Hk0|].
    destruct (max_by_count_spec its it) as [Hin Hmax].
    set (m := max_by_count it its) in *.
    assert (Hm : In m (it :: its)) by (destruct Hin as [->|Hin]; [left|right]; auto).
    assert (Hcnt : snd m = char_count isspace lower (x :: r) (fst m)).
    { rewrite <- (fsum_entry _ (fst m) (snd m) Hnd) by (destruct m; exact Hm).
      rewrite Hsum. reflexivity. }
    split.
    + destruct (proj1 (Hkeys (fst m))) as [[]|(c & Hc & Hsp & Hl)].
      * apply (in_map fst) in Hm. exact Hm.
      * exists c. auto.
    + intros c Hc Hsp.
      assert (Hk : In (lower c) (map fst (it :: its))) by (apply Hkeys; right; exists c; auto).
      apply in_map_iff in Hk as ([k n] & Hkn & Hin').
      simpl in Hkn. subst k.
      rewrite <- Hcnt.
      assert (Hn : n = char_count isspace lower (x :: r) (lower c))
        by (rewrite <- (fsum_entry _ (lower c) n Hnd Hin'), Hsum; reflexivity).
      rewrite <- Hn. exact (Hmax (lower c, n) Hin').
Qed.

End WithTables.

(** [count_lines] of two texts joined with a newline: the sum of their
    counts, plus one for each of them that is empty (an empty text counts
    no line, but makes an empty line of the joined text). *)
Theorem count_lines_join (s t : list Z) :
  PyTextAnalyzer.count_lines (s ++ 10%Z :: t)%list
  = (PyTextAnalyzer.count_lines s + PyTextAnalyzer.count_lines t
     + match s with [] => 1 | _ => 0 end + match t with [] => 1 | _ => 0 end)%nat.
Proof.
  assert (Hj : PyTextAnalyzer.count_lines (s ++ 10%Z :: t)%list
               = (count_occ Z.eq_dec s 10%Z + count_occ Z.eq_dec t 10%Z + 2)%nat).
  { unfold PyTextAnalyzer.count_lines.
    destruct (s ++ 10%Z :: t)%list as [|z r] eqn:E; [destruct s; discriminate|].
    rewrite <- E, count_occ_app. simpl. destruct (Z.eq_dec 10%Z 10%Z); [lia|congruence]. }
  rewrite Hj. destruct s, t; simpl; lia.
Qed.

End PyTextAnalyzerProofs.

Module PyLogParserProofs.
Import PyLogParser.

Lemma split_sep_acc_app (sep : Z) (cur s t : list Z) :
  split_sep_acc sep cur (s ++ sep :: t)%list
  = (split_sep_acc sep cur s ++ split_sep_acc sep [] t)%list.
Proof.
  revert cur. induction s as [|c s IH]; intros cur; simpl.
  - rewrite Z.eqb_refl. reflexivity.
  - destruct (Z.eqb c sep); [simpl; f_equal; apply IH | apply IH].
Qed.

Lemma split_sep_acc_length (sep : Z) (cur s : list Z) :
  length (split_sep_acc sep cur s) = (count_occ Z.eq_dec s sep + 1)%nat.
Proof.
  revert cur. induction s as [|c s IH]; intros cur; simpl; [reflexivity|].
  destruct (Z.eqb c sep) eqn:E.
  - apply Z.eqb_eq in E. subst c. destruct (Z.eq_dec sep sep); [|congruence].
    simpl. rewrite IH. reflexivity.
  - apply Z.eqb_neq in E. destruct (Z.eq_dec c sep); [congruence|]. apply IH.
Qed.

(** Joining two logs with a newline adds their line counts and their
    error-line counts. *)
Theorem find_errors_join (s t : list Z) :
  count_lines (s ++ newline :: t)%list = (count_lines s + count_lines t)%nat
  /\ find_errors (s ++ newline :: t)%list = (find_errors s + find_errors t)%nat.
Proof.
  split.
  - unfold count_lines. rewrite count_occ_app. simpl.
    destruct (Z.eq_dec newline newline) as [_|]; [lia|congruence].
  - unfold find_errors, split_on. rewrite split_sep_acc_app, List.filter_app.
    apply List.length_app.
Qed.

(** [find_errors] never exceeds [count_lines]. *)
Theorem find_errors_le_lines (text : list Z) :
  (find_errors text <= count_lines text)%nat.
Proof.
  unfold find_errors, count_lines, split_on.
  rewrite <- (split_sep_acc_length newline []).
  apply List.filter_length_le.
Qed.

Section Search.
Variable lower : Z -> list Z.
Variable str_lower : list Z -> list Z.

Lemma match_loop_some (text pl : list Z) (i : nat) (js : list nat) :
  (forall j, In j js -> (i + j < length text)%nat /\ (j < length pl)%nat) ->
  exists b, match_loop lower text pl i js = Some b.
Proof.
  induction js as [|j js IH]; intros H; simpl; [eauto|].
  destruct (H j (or_introl eq_refl)) as [H1 H2].
  destruct (lookup_lt_is_Some_2 text (i + j)%nat H1) as [tc ->].
  destruct (lookup_lt_is_Some_2 pl j H2) as [pc ->].
  destruct (bool_decide _); [|eauto]. apply IH. intros j' Hj'. apply H. right. exact Hj'.
Qed.

Lemma count_loop_filter (text pl : list Z) (plen : nat) (is : list nat) (c : nat) :
  (forall i, In i is -> match_loop lower text pl i (seq 0 plen) <> None) ->
  count_loop lower text pl plen is c
  = Some (c + length (List.filter (matches lower text pl plen) is))%nat.
Proof.
  revert c. induction is as [|i is IH]; intros c H; simpl; [f_equal; lia|].
  unfold matches at 1.
  destruct (match_loop lower text pl i (seq 0 plen)) as [[|]|] eqn:E.
  - rewrite bool_decide_true by reflexivity. rewrite IH by (intros; apply H; right; auto).
    simpl. f_equal. lia.
  - rewrite bool_decide_false by discriminate. apply IH. intros; apply H; right; auto.
  - exfalso. apply (H i); [left; reflexivity | exact E].
Qed.

Lemma positions_some (text pl : list Z) (plen : nat) :
  (plen <= length pl)%nat ->
  forall i, In i (seq 0 (Z.to_nat (Z.of_nat (length text) - Z.of_nat plen + 1))) ->
  match_loop lower text pl i (seq 0 plen) <> None.
Proof.
  intros Hpl i Hi. apply in_seq in Hi.
  destruct (match_loop_some text pl i (seq 0 plen)) as [b Hb].
  - intros j Hj. apply in_seq in Hj. lia.
  - rewrite Hb. discriminate.
Qed.

Lemma find_pattern_filter (text pattern : list Z) :
  pattern <> [] -> text <> [] ->
  (length pattern <= length (str_lower pattern))%nat ->
  find_pattern lower str_lower text pattern
  = Some (length (List.filter (matches lower text (str_lower pattern) (length pattern))
              (seq 0 (Z.to_nat (Z.of_nat (length text) - Z.of_nat (length pattern) + 1))))).
Proof.
  intros Hp Ht Hl. unfold find_pattern.
  destruct pattern as [|p0 ps]; [congruence|]. destruct text as [|t0 ts]; [congruence|].
  rewrite count_loop_filter by (apply positions_some; exact Hl). reflexivity.
Qed.

(** When the lowercase pattern is no shorter than the pattern,
    [find_pattern] raises no [IndexError], and it counts at most one
    match per start position [0 .. len(text) - len(pattern)]. *)
Theorem find_pattern_total (text pattern : list Z)
  (Hlen : (length pattern <= length (str_lower pattern))%nat) :
  exists n, find_pattern lower str_lower text pattern = Some n
  /\ (n = 0 \/ n + length pattern <= length text + 1)%nat.
Proof.
  destruct (decide (pattern = [])) as [->|Hp]; [exists 0%nat; split; [reflexivity|lia]|].
  destruct (decide (text = [])) as [->|Ht].
  { exists 0%nat. split; [destruct pattern; reflexivity|lia]. }
  rewrite find_pattern_filter by assumption.
  eexists. split; [reflexivity|].
  pose proof (List.filter_length_le (matches lower text (str_lower pattern) (length pattern))
    (seq 0 (Z.to_nat (Z.of_nat (length text) - Z.of_nat (length pattern) + 1)))) as H.
  rewrite length_seq in H.
  destruct pattern as [|p0 ps]; [congruence|]. simpl length in *. lia.
Qed.

Lemma match_loop_app_l (s t pl : list Z) (i : nat) (js : list nat) :
  (forall j, In j js -> (i + j < length s)%nat) ->
  match_loop lower (s ++ t) pl i js = match_loop lower s pl i js.
Proof.
  induction js as [|j js IH]; intros H; simpl; [reflexivity|].
  rewrite lookup_app_l by (apply H; left; reflexivity).
  rewrite IH by (intros; apply H; right; auto). reflexivity.
Qed.

Lemma match_loop_app_r (s t pl : list Z) (i : nat) (js : list nat) :
  match_loop lower (s ++ t) pl (length s + i) js = match_loop lower t pl i js.
Proof.
  induction js as [|j js IH]; simpl; [reflexivity|].
  replace (length s + i + j)%nat with (length s + (i + j))%nat by lia.
  rewrite lookup_app_r by lia. rewrite IH. replace (length s + (i + j) - length s)%nat with (i + j)%nat by lia. reflexivity.
Qed.

Lemma filter_seq_shift_gen (f : nat -> bool) (a b n : nat) :
  length (List.filter f (seq (a + b) n))
  = length (List.filter (fun i => f (a + i)%nat) (seq b n)).
Proof.
  revert b. induction n as [|n IH]; intros b; simpl; [reflexivity|].
  replace (S (a + b)) with (a + S b)%nat by lia.
  destruct (f (a + b)%nat); simpl; rewrite IH; reflexivity.
Qed.

Lemma filter_seq_shift (f : nat -> bool) (a n : nat) :
  length (List.filter f (seq a n)) = length (List.filter (fun i => f (a + i)%nat) (seq 0 n)).
Proof.
  rewrite <- filter_seq_shift_gen, Nat.add_0_r. reflexivity.
Qed.

Lemma filter_seq_ext (f g : nat -> bool) (a n : nat) :
  (forall i, (a <= i < a + n)%nat -> f i = g i) ->
  List.filter f (seq a n) = List.filter g (seq a n).
Proof.
  intros H. apply List.filter_ext_in. intros i Hi. apply in_seq in Hi. apply H. lia.
Qed.

Lemma sublist_List_filter (f : nat -> bool) (l1 l2 : list nat) :
  l1 `sublist_of` l2 -> List.filter f l1 `sublist_of` List.filter f l2.
Proof.
  induction 1 as [|x l1 l2 _ IH|x l1 l2 _ IH]; simpl; [constructor| |];
    destruct (f x); try constructor; exact IH.
Qed.

(** Matches are never lost by concatenation: the count in [s + t] is at
    least the count in [s] plus the count in [t]. *)
Theorem find_pattern_superadditive (s t pattern : list Z)
  (Hlen : (length pattern <= length (str_lower pattern))%nat) :
  exists n1 n2 n,
    find_pattern lower str_lower s pattern = Some n1
    /\ find_pattern lower str_lower t pattern = Some n2
    /\ find_pattern lower str_lower (s ++ t) pattern = Some n
    /\ (n1 + n2 <= n)%nat.
Proof.
  destruct (decide (pattern = [])) as [->|Hp].
  { exists 0%nat, 0%nat, 0%nat. repeat split; simpl; lia. }
  destruct (decide (s = [])) as [->|Hs].
  { destruct (find_pattern_total t pattern Hlen) as (n & Hn & _).
    exists 0%nat, n, n.
    split; [destruct pattern; reflexivity|]. split; [exact Hn|]. split; [exact Hn | lia]. }
  destruct (decide (t = [])) as [->|Ht].
  { destruct (find_pattern_total s pattern Hlen) as (n & Hn & _).
    exists n, 0%nat, n. rewrite app_nil_r.
    split; [exact Hn|]. split; [destruct pattern; reflexivity|]. split; [exact Hn | lia]. }
  assert (Hst : (s ++ t)%list <> []) by (destruct s; [congruence | discriminate]).
  rewrite !find_pattern_filter by assumption.
  do 3 eexists. repeat (split; [reflexivity|]).
  set (pl := str_lower pattern). set (plen := length pattern).
  assert (Hplen : (1 <= plen)%nat) by (destruct pattern; [congruence | unfold plen; simpl; lia]).
  rewrite List.length_app.
  set (N1 := Z.to_nat (Z.of_nat (length s) - Z.of_nat plen + 1)).
  set (N2 := Z.to_nat (Z.of_nat (length t) - Z.of_nat plen + 1)).
  set (N := Z.to_nat (Z.of_nat (length s + length t) - Z.of_nat plen + 1)).
  (* positions of [s] keep their verdict in [s ++ t] *)
  assert (E1 : List.filter (matches lower s pl plen) (seq 0 N1)
               = List.filter (matches lower (s ++ t) pl plen) (seq 0 N1)).
  { apply filter_seq_ext. intros i Hi. unfold matches.
    rewrite match_loop_app_l; [reflexivity|]. intros j Hj. apply in_seq in Hj.
    unfold N1 in Hi. lia. }
  (* positions of [t] are those of [s ++ t] shifted by [length s] *)
  assert (E2 : length (List.filter (matches lower t pl plen) (seq 0 N2))
               = length (List.filter (matches lower (s ++ t) pl plen) (seq (length s) N2))).
  { rewrite (filter_seq_shift _ (length s) N2). f_equal. apply List.filter_ext. intros i. unfold matches.
    rewrite match_loop_app_r. reflexivity. }
  rewrite E1, E2, <- List.length_app, <- List.filter_app.
  apply sublist_length, sublist_List_filter.
  destruct (decide (N2 = 0%nat)) as [HN2|HN2].
  - rewrite HN2, app_nil_r.
    assert (HN : (N1 <= N)%nat) by (unfold N1, N; lia).
    replace N with (N1 + (N - N1))%nat by lia. rewrite seq_app.
    apply sublist_inserts_r. reflexivity.
  - assert (HN : (N = length s + N2)%nat) by (unfold N2, N in *; lia).
    assert (HN1 : (N1 <= length s)%nat) by (unfold N1; lia).
    assert (Eq : seq 0 (length s + N2)
                 = (seq 0 N1 ++ seq N1 (length s - N1) ++ seq (length s) N2)%list).
    { replace (length s + N2)%nat with (N1 + ((length s - N1) + N2))%nat by lia.
      rewrite !seq_app.
      replace (0 + N1 + (length s - N1))%nat with (length s) by lia.
      replace (0 + N1)%nat with N1 by lia. reflexivity. }
    rewrite HN, Eq.
    apply sublist_app; [reflexivity|]. apply sublist_inserts_l. reflexivity.
Qed.

Lemma search_loop_lookup (text : list Z) (ps : list (list Z)) (r : gmap (list Z) nat) :
  forallb (fun p => Nat.leb (length p) (length (str_lower p))) ps = true ->
  exists m, search_loop lower str_lower text ps r = Some m
  /\ forall p, m !! p = if bool_decide (p ∈ ps) then find_pattern lower str_lower text p
                         else r !! p.
Proof.
  revert r. induction ps as [|q ps IH]; intros r H; cbn [search_loop].
  - exists r. split; [reflexivity|]. intros p. rewrite bool_decide_false; [reflexivity|].
    apply not_elem_of_nil.
  - apply andb_true_iff in H as [Hq H]. apply Nat.leb_le in Hq.
    destruct (find_pattern_total text q Hq) as (n & Hn & _). rewrite Hn.
    destruct (IH (<[q := n]> r) H) as (m & Hm & Hlk). exists m. split; [exact Hm|].
    intros p. rewrite Hlk.
    destruct (decide (p ∈ ps)) as [Hin|Hin].
    + rewrite !bool_decide_true by (first [exact Hin | apply elem_of_cons; right; exact Hin]). reflexivity.
    + rewrite (bool_decide_false (p ∈ ps)) by exact Hin.
      destruct (decide (p = q)) as [->|Hne].
      * rewrite bool_decide_true by (apply elem_of_cons; left; reflexivity).
        rewrite lookup_insert_eq. symmetry. exact Hn.
      * rewrite bool_decide_false by (rewrite elem_of_cons; intros [?|?]; contradiction).
        apply lookup_insert_ne. congruence.
Qed.

(** [search_multiple_patterns] maps exactly the given patterns, each to
    its [find_pattern] count (a repeated pattern keeps the same count). *)
Theorem search_multiple_patterns_lookup (text : list Z) (patterns : list (list Z))
  (Hlen : forallb (fun p => Nat.leb (length p) (length (str_lower p))) patterns = true) :
  exists results, search_multiple_patterns lower str_lower text patterns = Some results
  /\ forall p, results !! p = if bool_decide (p ∈ patterns)
                              then find_pattern lower str_lower text p else None.
Proof.
  destruct (search_loop_lookup text patterns ∅ Hlen) as (m & Hm & Hlk).
  exists m. split; [exact Hm|]. intros p. rewrite Hlk, lookup_empty. reflexivity.
Qed.

End Search.

End PyLogParserProofs.

Module PyImageProcessorProofs.
Import PyImageProcessor.

Section Brightness.
Variable F : Type.
Variable fmul : F -> F -> F.
Variable flt : F -> F -> bool.
Variable f0 f255 : F.

Lemma clamp_cases (x : F) (H0 : flt f0 f255 = true) :
  let q := py_min2 flt f255 (py_max2 flt f0 x) in
  (q = f0 /\ flt f0 x = false) \/ (q = f255 /\ flt f0 x = true /\ flt x f255 = false)
  \/ (q = x /\ flt f0 x = true /\ flt x f255 = true).
Proof.
  unfold py_min2, py_max2. simpl.
  destruct (flt f0 x) eqn:E0.
  - destruct (flt x f255) eqn:E1; auto.
  - rewrite H0. auto.
Qed.

(** [adjust_brightness] keeps the number of pixels, and each new pixel is
    [0.0] (the product is not above [0.0], NaN included), [255.0] (the
    product is not below [255.0]) or the product itself, strictly between
    the two. *)
Theorem adjust_brightness_clamped (pixels : list F) (factor : F)
  (H0 : flt f0 f255 = true) :
  length (adjust_brightness fmul flt f0 f255 pixels factor) = length pixels
  /\ forall i p, pixels !! i = Some p ->
     exists q, adjust_brightness fmul flt f0 f255 pixels factor !! i = Some q
     /\ ((q = f0 /\ flt f0 (fmul p factor) = false)
         \/ (q = f255 /\ flt f0 (fmul p factor) = true /\ flt (fmul p factor) f255 = false)
         \/ (q = fmul p factor /\ flt f0 q = true /\ flt q f255 = true)).
Proof.
  unfold adjust_brightness. split; [apply length_map|].
  intros i p Hp. rewrite list_lookup_fmap, Hp. eexists. split; [reflexivity|].
  destruct (clamp_cases (fmul p factor) H0) as [H|[H|(Hq & H1 & H2)]]; auto.
  right; right. rewrite Hq. auto.
Qed.

(** Adjusting an adjusted image with factor [1.0] changes nothing. *)
Theorem adjust_brightness_idempotent (pixels : list F) (factor f1 : F)
  (Hone : forall x, fmul x f1 = x)
  (Hirr : forall x, flt x x = false)
  (H0 : flt f0 f255 = true) :
  adjust_brightness fmul flt f0 f255 (adjust_brightness fmul flt f0 f255 pixels factor) f1
  = adjust_brightness fmul flt f0 f255 pixels factor.
Proof.
  unfold adjust_brightness. rewrite map_map. apply map_ext. intros p.
  rewrite Hone.
  destruct (clamp_cases (fmul p factor) H0) as [(-> & _)|[(-> & _)|(-> & H1 & H2)]];
    unfold py_min2, py_max2.
  - rewrite Hirr, H0. reflexivity.
  - rewrite H0, Hirr. reflexivity.
  - rewrite H1, H2. reflexivity.
Qed.

End Brightness.

End PyImageProcessorProofs.

(* ------------------------------------------------------------------ *)
(** * Counterexamples: the test scenarios on which a property fails *)

Module Counterexamples.
Import Classes.

(** C2: a native body throwing an exception whose message is empty
    (as [throw std::runtime_error("")] does) makes the call raise a host
    error whose message is empty too: the message is preserved, so it is
    not always non-empty. *)
Lemma empty_native_message_preserved :
  invoke Classes.decl_of Classes.default_of calc_state 0 (meth "fail" [] None)
    (fun _ _ => nthrow "") [] = (calc_state, Err (HostErr "RuntimeError" "")).
Proof. reflexivity. Qed.

(** C5: the callback test's [bad_callback] raises [ValueError]; the call
    [emit_data(1)] raises [RuntimeError] with the same message, not the
    original [ValueError]. *)
Lemma callback_value_error_surfaces_as_runtime_error :
  snd (invoke Classes.decl_of Classes.default_of emitter_state 0
         (meth "emit_data" [int] None) EventEmitter_emit_data [HInt 1])
  = Err (HostErr "RuntimeError" "Test exception from Python") /\
  snd (invoke Classes.decl_of Classes.default_of emitter_state 0
         (meth "emit_data" [int] None) EventEmitter_emit_data [HInt 1])
  <> Err (HostErr "ValueError" "Test exception from Python").
Proof.
  split; [reflexivity|]. vm_compute. discriminate.
Qed.


End Counterexamples.

(* ------------------------------------------------------------------ *)
(** * The properties on the test scenarios *)

Module Witnesses.
Import Classes.

Lemma person_state_wf : wf person_state.
Proof.
  intros k v H. unfold person_state in H. simpl in H. simpl.
  destruct k as [|[|k]]; [lia|lia|].
  rewrite lookup_insert_ne in H by lia. rewrite lookup_insert_ne in H by lia.
  rewrite lookup_empty in H. discriminate.
Qed.

Definition person_fields : list (string * nval) :=
  match default_of "Person" with Some fs => fs | None => [] end.

Lemma set_field_other_instances_unchanged_witness :
  exists st', set_field Classes.decl_of Classes.default_of person_state 0 "name" (HStr "Bob")
              = Ok st' /\ heap st' !! 1 = heap person_state !! 1.
Proof.
  eexists. split; [reflexivity|].
  apply (Instances.set_field_other_instances_unchanged Classes.decl_of Classes.default_of
           person_state _ 0 "name" (HStr "Bob") eq_refl 1).
  discriminate.
Defined.

Lemma class_value_copy_semantics_witness :
  wf person_state /\
  exists st' st'' l'',
    set_field Classes.decl_of Classes.default_of person_state 0 "address" (HObj 1) = Ok st' /\
    get_field Classes.decl_of st' 0 "address" = Ok (st'', HObj l'') /\
    heap st'' !! l'' = Some (NObj "Address" [("street", NStr "123 Main St");
                                             ("city", NStr "Springfield");
                                             ("zip_code", NInt 12345)]).
Proof.
  split; [exact person_state_wf|].
  apply (proj2 (Instances.class_value_copy_semantics Classes.decl_of Classes.default_of
                  person_state 0 "Person" "Address" "address" person_fields
                  (rw "address" (TClass "Address"))
                  person_state_wf eq_refl eq_refl eq_refl eq_refl) 1).
  reflexivity.
Defined.

Lemma bound_symbol_rule_witness :
  In ("print_int", meth "print" [int] None) (fst (Overload.resolve printer_methods)) /\
  In ("format_int_int", meth "format" [int; int] (Some TText))
     (fst (Overload.resolve printer_methods)) /\
  In ("get_last", meth "get_last" [] (Some TText)) (fst (Overload.resolve printer_methods)).
Proof.
  split; [|split].
  - exact (proj2 (proj2 (OverloadProofs.bound_symbol_rule printer_methods
             (meth "print" [int] None) ltac:(simpl; tauto)))
             ltac:(vm_compute; lia) eq_refl).
  - exact (proj2 (proj2 (OverloadProofs.bound_symbol_rule printer_methods
             (meth "format" [int; int] (Some TText)) ltac:(simpl; tauto)))
             ltac:(vm_compute; lia) eq_refl).
  - exact (proj1 (proj2 (OverloadProofs.bound_symbol_rule printer_methods
             (meth "get_last" [] (Some TText)) ltac:(simpl; tauto))) eq_refl).
Defined.


Lemma rm_state_wf : wf rm_state.
Proof.
  intros k v H. unfold rm_state in H. simpl in H. simpl.
  destruct k as [|k]; [lia|].
  rewrite lookup_insert_ne in H by lia. rewrite lookup_empty in H. discriminate.
Qed.

Lemma smart_exclusive_to_host_witness :
  exists st' l',
    invoke Classes.decl_of Classes.default_of rm_state 0
      (meth "create_unique" [TText; int] (Some (TSmart Exclusive "Data")))
      ResourceManager_create [HStr "test1"; HInt 42] = (st', Ok (HObj l')) /\
    heap rm_state !! l' = None /\
    heap st' !! l' = Some (NObj "Data" [("name", NStr "test1"); ("value", NInt 42)]) /\
    (forall k, k <> l' -> heap st' !! k = heap rm_state !! k) /\ wf st'.
Proof.
  exact (proj2 (proj2 (SmartHandles.smart_exclusive_to_host Classes.decl_of Classes.default_of)
           rm_state 0 (meth "create_unique" [TText; int] (Some (TSmart Exclusive "Data")))
           ResourceManager_create [HStr "test1"; HInt 42]
           [NStr "test1"; NInt 42] rm_state "Data" _ rm_state_wf eq_refl eq_refl eq_refl)
           _ eq_refl).
Defined.


Lemma native_exception_translated_witness :
  invoke Classes.decl_of Classes.default_of calc_state 0 (meth "divide" [dbl] (Some dbl))
    (Calculator_divide "Division by zero") [HFloat 0]
  = (calc_state, Err (HostErr "RuntimeError" "Division by zero")) /\
  snd (invoke Classes.decl_of Classes.default_of calc_state 0 (meth "divide" [dbl] (Some dbl))
         (Calculator_divide "Division by zero") [HFloat 2]) = Ok (HFloat (0 / 2)%Q).
Proof.
  exact (proj2 (Calls.native_exception_translated Classes.decl_of Classes.default_of)
           "Division by zero" calc_state 0 _ 0%Q ltac:(discriminate) eq_refl eq_refl).
Defined.

Lemma callback_error_through_frame_witness :
  exists st',
    invoke Classes.decl_of Classes.default_of emitter_state 0 (meth "emit_data" [int] None)
      EventEmitter_emit_data [HInt 1]
    = (st', Err (HostErr "RuntimeError" "Test exception from Python")) /\
    live st' = live emitter_state.
Proof.
  exact (Calls.callback_error_through_frame Classes.decl_of Classes.default_of
           emitter_state 0 (meth "emit_data" [int] None) EventEmitter_emit_data [HInt 1]
           [NInt 1] (FAfter (nget 0 "data_callback") (fun _ => FHole)) emitter_state 0
           bad_callback None [int] [NInt 1] "ValueError" "Test exception from Python" []
           eq_refl eq_refl eq_refl eq_refl eq_refl).
Defined.

Lemma callback_slot_cleared_witness :
  exists st1,
    invoke Classes.decl_of Classes.default_of emitter_state 0
      (meth "clear_callbacks" [] None) EventEmitter_clear_callbacks [] = (st1, Ok HNone) /\
    forall sm, In sm EventEmitter_slots -> callback_unset st1 0 sm.
Proof.
  exact (proj2 (proj2 (Calls.callback_slot_cleared Classes.decl_of Classes.default_of)
                  emitter_state 0 _ eq_refl)).
Defined.

End Witnesses.

(** Instances of the properties of the pure-Python classes, on ASCII
    text and on integer pixels. *)
Module PyWitnesses.

Lemma fibonacci_recurrence_witness :
  (0 <= 10)%Z /\
  PyCalculator.fibonacci (10 + 2) = (PyCalculator.fibonacci (10 + 1) + PyCalculator.fibonacci 10)%Z.
Proof.
  split; [lia|]. apply (PyCalculatorProofs.fibonacci_recurrence 10). lia.
Defined.

Lemma count_words_join_witness :
  ascii_isspace 32 = true /\
  PyTextAnalyzer.count_words ascii_isspace (py_str "Hello World" ++ 32%Z :: py_str " is a test.")%list
  = (PyTextAnalyzer.count_words ascii_isspace (py_str "Hello World")
     + PyTextAnalyzer.count_words ascii_isspace (py_str " is a test."))%nat.
Proof.
  split; [reflexivity|].
  apply (PyTextAnalyzerProofs.count_words_join ascii_isspace). reflexivity.
Defined.

Lemma palindrome_of_reverse_witness :
  forallb (fun c => Nat.eqb (length (ascii_lower c)) 1) (py_str "Step on no pets") = true /\
  PyTextAnalyzer.is_palindrome ascii_isspace ascii_lower
    (PyTextAnalyzer.reverse (py_str "Step on no pets"))
  = PyTextAnalyzer.is_palindrome ascii_isspace ascii_lower (py_str "Step on no pets").
Proof.
  split; [vm_compute; reflexivity|].
  apply (PyTextAnalyzerProofs.palindrome_of_reverse ascii_isspace ascii_lower).
  vm_compute. reflexivity.
Defined.

Lemma most_common_char_spec_witness :
  existsb (fun c => negb (ascii_isspace c)) (py_str "Hello World") = true /\
  (exists c, In c (py_str "Hello World") /\ ascii_isspace c = false /\
     ascii_lower c = PyTextAnalyzer.most_common_char ascii_isspace ascii_lower (py_str "Hello World")).
Proof.
  split; [vm_compute; reflexivity|].
  apply (proj2 (PyTextAnalyzerProofs.most_common_char_spec ascii_isspace ascii_lower
                  (py_str "Hello World"))).
  vm_compute. reflexivity.
Defined.

Lemma find_pattern_total_witness :
  (length (py_str "ERROR") <= length (ascii_str_lower (py_str "ERROR")))%nat /\
  exists n, PyLogParser.find_pattern ascii_lower ascii_str_lower
              (py_str "error: disk ERROR") (py_str "ERROR") = Some n
  /\ (n = 0 \/ n + length (py_str "ERROR") <= length (py_str "error: disk ERROR") + 1)%nat.
Proof.
  split; [vm_compute; lia|].
  apply (PyLogParserProofs.find_pattern_total ascii_lower ascii_str_lower).
  vm_compute. lia.
Defined.

Lemma find_pattern_superadditive_witness :
  (length (py_str "ab") <= length (ascii_str_lower (py_str "ab")))%nat /\
  exists n1 n2 n,
    PyLogParser.find_pattern ascii_lower ascii_str_lower (py_str "xxa") (py_str "ab") = Some n1
    /\ PyLogParser.find_pattern ascii_lower ascii_str_lower (py_str "Bab") (py_str "ab") = Some n2
    /\ PyLogParser.find_pattern ascii_lower ascii_str_lower
         (py_str "xxa" ++ py_str "Bab")%list (py_str "ab") = Some n
    /\ (n1 + n2 <= n)%nat.
Proof.
  split; [vm_compute; lia|].
  apply (PyLogParserProofs.find_pattern_superadditive ascii_lower ascii_str_lower).
  vm_compute. lia.
Defined.

Lemma search_multiple_patterns_lookup_witness :
  forallb (fun p => Nat.leb (length p) (length (ascii_str_lower p)))
    [py_str "ERROR"; py_str "timeout"; py_str "ERROR"] = true /\
  exists results,
    PyLogParser.search_multiple_patterns ascii_lower ascii_str_lower
      (py_str "ERROR timeout") [py_str "ERROR"; py_str "timeout"; py_str "ERROR"] = Some results
    /\ forall p, results !! p
         = if bool_decide (p ∈ [py_str "ERROR"; py_str "timeout"; py_str "ERROR"])
           then PyLogParser.find_pattern ascii_lower ascii_str_lower (py_str "ERROR timeout") p
           else None.
Proof.
  split; [vm_compute; reflexivity|].
  apply (PyLogParserProofs.search_multiple_patterns_lookup ascii_lower ascii_str_lower).
  vm_compute. reflexivity.
Defined.

Lemma adjust_brightness_clamped_witness :
  Z.ltb 0 255 = true /\
  length (PyImageProcessor.adjust_brightness Z.mul Z.ltb 0%Z 255%Z [100%Z; 300%Z; (-5)%Z] 2%Z)
  = length [100%Z; 300%Z; (-5)%Z]
  /\ forall i p, [100%Z; 300%Z; (-5)%Z] !! i = Some p ->
     exists q, PyImageProcessor.adjust_brightness Z.mul Z.ltb 0%Z 255%Z
                 [100%Z; 300%Z; (-5)%Z] 2%Z !! i = Some q
     /\ ((q = 0%Z /\ Z.ltb 0 (p * 2) = false)
         \/ (q = 255%Z /\ Z.ltb 0 (p * 2) = true /\ Z.ltb (p * 2) 255 = false)
         \/ (q = (p * 2)%Z /\ Z.ltb 0 q = true /\ Z.ltb q 255 = true)).
Proof.
  split; [reflexivity|].
  apply (PyImageProcessorProofs.adjust_brightness_clamped Z Z.mul Z.ltb 0%Z 255%Z).
  reflexivity.
Defined.

Lemma adjust_brightness_idempotent_witness :
  (forall x, x * 1 = x)%Z /\ (forall x, Z.ltb x x = false) /\ Z.ltb 0 255 = true /\
  PyImageProcessor.adjust_brightness Z.mul Z.ltb 0%Z 255%Z
    (PyImageProcessor.adjust_brightness Z.mul Z.ltb 0%Z 255%Z [100%Z; 300%Z; (-5)%Z] 2%Z) 1%Z
  = PyImageProcessor.adjust_brightness Z.mul Z.ltb 0%Z 255%Z [100%Z; 300%Z; (-5)%Z] 2%Z.
Proof.
  split; [intros x; lia|]. split; [intros x; apply Z.ltb_irrefl|]. split; [reflexivity|].
  apply (PyImageProcessorProofs.adjust_brightness_idempotent Z Z.mul Z.ltb 0%Z 255%Z).
  - intros x. lia.
  - intros x. apply Z.ltb_irrefl.
  - reflexivity.
Defined.

End PyWitnesses.
